(** * YearOneBook: the collage compositing and interaction engine

    A shallow embedding of [src/components/CollageCanvas.tsx] (renderer,
    interaction controller, export) and of the parts of the host component
    ([App]) that own the layout model, followed by the properties of the
    specification that are checked against it.

    A JavaScript [number] is kept abstract behind the [Number] interface, so
    that every function of the source is written once and read at two
    instances: exact rationals ([Q], for the algebraic laws) and IEEE-754
    binary64 (primitive floats, which is what a JavaScript engine runs). *)

From Stdlib Require Import ZArith QArith Qminmax Qround Lqa Lia Bool List.
From Stdlib Require Import String Ascii.
From Stdlib Require Import Floats.PrimFloat Numbers.Cyclic.Int63.Uint63.
From Stdlib Require Import DecimalString DecimalN.
Import ListNotations.

Set Implicit Arguments.
Local Open Scope string_scope.

(* ================================================================= *)
(** ** Numbers *)

(** The arithmetic of the source: literals (given as the fraction they
    denote), [+ - * /], [Math.min] and the comparison [<] ([a > b] is
    [b < a]). *)
Class Number (num : Type) : Type := {
  lit  : Q -> num;
  add  : num -> num -> num;
  sub  : num -> num -> num;
  mul  : num -> num -> num;
  div  : num -> num -> num;
  Math_min : num -> num -> num;
  lt   : num -> num -> bool
}.

(** [Math.sqrt] and [Math.pow(_, 2)], which only the hit tests use; the
    binary64 instance takes the square as the rounded product. *)
Class MathLib (num : Type) : Type := {
  Math_sqrt : num -> num;
  Math_pow2 : num -> num
}.

Declare Scope num_scope.
Delimit Scope num_scope with num.
Infix "+" := add : num_scope.
Infix "-" := sub : num_scope.
Infix "*" := mul : num_scope.
Infix "/" := div : num_scope.
Notation "a <? b" := (lt a b) : num_scope.
Notation "a >? b" := (lt b a) : num_scope.

(** Exact rational arithmetic. *)
#[export] Instance Q_Number : Number Q := {|
  lit := fun q => q;
  add := Qplus;
  sub := Qminus;
  mul := Qmult;
  div := Qdiv;
  Math_min := Qmin;
  lt := fun a b => negb (Qle_bool b a)
|}.

(** IEEE-754 binary64.  A literal [n/d] of the source (such as [0.08],
    written [8 # 100]) is the correctly rounded quotient of two exactly
    represented integers, which is the double a JavaScript parser reads. *)
Module Binary64.

Definition ofZ (z : Z) : float :=
  if (z <? 0)%Z
  then PrimFloat.opp (PrimFloat.of_uint63 (Uint63.of_Z (Z.opp z)))
  else PrimFloat.of_uint63 (Uint63.of_Z z).

Definition ofQ (q : Q) : float :=
  PrimFloat.div (ofZ (Qnum q)) (ofZ (Zpos (Qden q))).

(** [Math.min]: NaN if either argument is NaN, else the smaller one (the
    sign of a zero apart). *)
Definition min (a b : float) : float :=
  if PrimFloat.is_nan a then a
  else if PrimFloat.is_nan b then b
  else if PrimFloat.ltb b a then b else a.

End Binary64.

#[export] Instance float_Number : Number float := {|
  lit := Binary64.ofQ;
  add := PrimFloat.add;
  sub := PrimFloat.sub;
  mul := PrimFloat.mul;
  div := PrimFloat.div;
  Math_min := Binary64.min;
  lt := PrimFloat.ltb
|}.

#[export] Instance float_MathLib : MathLib float := {|
  Math_sqrt := PrimFloat.sqrt;
  Math_pow2 := fun x => PrimFloat.mul x x
|}.

(* ================================================================= *)
(** ** Data model ([src/types.ts]) *)

Section Model.

Context {num : Type} `{Number num}.
Local Open Scope num_scope.

(** [{ x: number, y: number }] *)
Record Point : Type := mkPoint { pt_x : num; pt_y : num }.

(** What the renderer reads of an [HTMLImageElement]. *)
Record Image : Type := mkImage { img_width : num; img_height : num }.

(** [PhotoSlot].  The [file] field is carried by the host only and read by
    none of the functions below; an absent [isCenter] is [false]. *)
Record PhotoSlot : Type := mkSlot {
  id : string;
  label : string;
  image : option Image;
  x : num;
  y : num;
  radius : num;
  isCenter : bool;
  imageOffsetX : num;
  imageOffsetY : num
}.

(** The props of [CollageCanvas] that carry data. *)
Record Props : Type := mkProps {
  slots : list PhotoSlot;
  width : num;
  height : num;
  displaySize : num;
  message : option string;
  messagePos : Point
}.

(* --------------------------------------------------------------- *)
(** *** The content square (lines 35-42) *)

Definition scaleBase (p : Props) : num := Math_min (width p) (height p).
Definition contentSize (p : Props) : num := scaleBase p.
Definition paddingX (p : Props) : num := (width p - contentSize p) / lit 2.
Definition paddingY (p : Props) : num := (height p - contentSize p) / lit 2.

(** The slot geometry in pixels, as [draw] (lines 176-178) and
    [handleMouseDown] (lines 349-351) both compute it. *)
Definition slotCx (p : Props) (slot : PhotoSlot) : num :=
  paddingX p + x slot * contentSize p.
Definition slotCy (p : Props) (slot : PhotoSlot) : num :=
  paddingY p + y slot * contentSize p.
Definition slotR (p : Props) (slot : PhotoSlot) : num :=
  radius slot * contentSize p.

(** The same mapping on a bare unit-space point. *)
Definition unitToPixel (p : Props) (u : Point) : Point :=
  mkPoint (paddingX p + pt_x u * contentSize p)
          (paddingY p + pt_y u * contentSize p).

(* --------------------------------------------------------------- *)
(** *** Aspect fill (lines 204-229) *)

(** The arguments of [ctx.drawImage(img, offsetX, offsetY, drawWidth,
    drawHeight)]. *)
Record DrawRect : Type := mkRect {
  offsetX : num;
  offsetY : num;
  drawWidth : num;
  drawHeight : num
}.

Definition imgAspect (img : Image) : num := img_width img / img_height img.
Definition drawAspect : num := lit 1.

(** The placement before the pan offset is applied (lines 210-222). *)
Definition aspectFill (img : Image) (cx cy r : num) : DrawRect :=
  if imgAspect img >? drawAspect then
    let drawHeight := r * lit 2 in
    let drawWidth := drawHeight * imgAspect img in
    mkRect (cx - drawWidth / lit 2) (cy - r) drawWidth drawHeight
  else
    let drawWidth := r * lit 2 in
    let drawHeight := drawWidth / imgAspect img in
    mkRect (cx - r) (cy - drawHeight / lit 2) drawWidth drawHeight.

(** Lines 226-227: the user offset, stored relative to [scaleBase]. *)
Definition applyPan (p : Props) (slot : PhotoSlot) (d : DrawRect) : DrawRect :=
  mkRect (offsetX d + imageOffsetX slot * scaleBase p)
         (offsetY d + imageOffsetY slot * scaleBase p)
         (drawWidth d) (drawHeight d).

(** The [drawImage] call of a slot, if the slot holds an image. *)
Definition drawSlotImage (p : Props) (slot : PhotoSlot) : option DrawRect :=
  match image slot with
  | Some img =>
      Some (applyPan p slot
              (aspectFill img (slotCx p slot) (slotCy p slot) (slotR p slot)))
  | None => None
  end.

End Model.

Arguments Point num : clear implicits.
Arguments Image num : clear implicits.
Arguments PhotoSlot num : clear implicits.
Arguments Props num : clear implicits.
Arguments DrawRect num : clear implicits.

(* ================================================================= *)
(** ** Strings of the JavaScript runtime *)

Module JS.

(** [s.includes(pat)] *)
Fixpoint includes (s pat : string) : bool :=
  String.prefix pat s ||
  match s with
  | EmptyString => false
  | String _ s' => includes s' pat
  end.

Fixpoint drop (n : nat) (s : string) : string :=
  match n, s with
  | O, _ => s
  | S n', String _ s' => drop n' s'
  | S _, EmptyString => EmptyString
  end.

(** [s.replace(pat, rep)] for a string pattern: the first occurrence only
    ([rep] holds no [$] pattern at its one use). *)
Fixpoint replace (s pat rep : string) : string :=
  if String.prefix pat s then rep ++ drop (String.length pat) s
  else match s with
       | EmptyString => EmptyString
       | String c s' => String c (replace s' pat rep)
       end.

(** [s.split(' ')]: the pieces between single spaces, empty pieces kept;
    the empty string splits into one empty piece. *)
Fixpoint split_space (s : string) : list string :=
  match s with
  | EmptyString => [EmptyString]
  | String c s' =>
      if Ascii.eqb c " " then EmptyString :: split_space s'
      else match split_space s' with
           | w :: ws => String c w :: ws
           | [] => [String c EmptyString]
           end
  end.

(** White space and line terminators that [parseInt] skips.  A string is
    read as its sequence of code units, each below 256: of the characters
    JavaScript strips, tab to carriage return (9-13), the space (32) and the
    no-break space (160) are in that range. *)
Definition isWhiteSpace (c : ascii) : bool :=
  let n := nat_of_ascii c in
  ((9 <=? n) && (n <=? 13))%nat || (n =? 32)%nat || (n =? 160)%nat.

Fixpoint trimStart (s : string) : string :=
  match s with
  | String c s' => if isWhiteSpace c then trimStart s' else s
  | EmptyString => EmptyString
  end.

Definition digitValue (radix : Z) (c : ascii) : option Z :=
  (let n := Z.of_nat (nat_of_ascii c) in
   let v := if (48 <=? n) && (n <=? 57) then Some (n - 48)
            else if (97 <=? n) && (n <=? 122) then Some (n - 87)
            else if (65 <=? n) && (n <=? 90) then Some (n - 55)
            else None in
   match v with
   | Some d => if d <? radix then Some d else None
   | None => None
   end)%Z.

(** The longest prefix of digits, accumulated; [None] while no digit has
    been read. *)
Fixpoint parseDigits (radix : Z) (s : string) (acc : option Z) : option Z :=
  match s with
  | EmptyString => acc
  | String c s' =>
      match digitValue radix c with
      | Some d =>
          parseDigits radix s'
            (Some (radix * match acc with Some a => a | None => 0 end + d)%Z)
      | None => acc
      end
  end.

(** The value of an integer-valued JavaScript number: [NaN], an infinity,
    or a finite integer ([-0] is [Finite 0]: it prints, compares and
    indexes as [0]). *)
Inductive number : Type :=
| NaN
| Infinity (negative : bool)
| Finite (z : Z).

(** The nearest binary64 value of an integer (ties to even): the integer
    itself below [2^53], an infinity when the rounded magnitude reaches
    [2^1024]. *)
Definition toNumber (z : Z) : number :=
  let a := Z.abs z in
  if (a <? 2 ^ 53)%Z then Finite z
  else
    let k := (Z.log2 a - 52)%Z in
    let q := (a / 2 ^ k)%Z in
    let r := (a mod 2 ^ k)%Z in
    let half := (2 ^ (k - 1))%Z in
    let q' := if (r <? half)%Z then q
              else if (half <? r)%Z then (q + 1)%Z
              else if Z.even q then q else (q + 1)%Z in
    if (2 ^ 1024 <=? q' * 2 ^ k)%Z then Infinity (z <? 0)%Z
    else Finite (Z.sgn z * (q' * 2 ^ k))%Z.

(** [parseInt(s)] with no radix argument. *)
Definition parseInt (s : string) : number :=
  let s1 := trimStart s in
  let '(sign, s2) :=
    match s1 with
    | String "-" r => ((-1)%Z, r)
    | String "+" r => (1%Z, r)
    | _ => (1%Z, s1)
    end in
  let '(radix, s3) :=
    match s2 with
    | String "0" (String "x" r) => (16%Z, r)
    | String "0" (String "X" r) => (16%Z, r)
    | _ => (10%Z, s2)
    end in
  match parseDigits radix s3 None with
  | Some v => toNumber (sign * v)
  | None => NaN
  end.

(** The decimal text of a non-negative integer, as a template literal or
    a label prints it. *)
Definition showN (n : N) : string := NilEmpty.string_of_uint (N.to_uint n).

End JS.

(* ================================================================= *)
(** ** The renderer: caption and badges *)

Section Renderer.

Context {num : Type} `{Number num}.
Local Open Scope num_scope.

(** [ctx.measureText(s).width] under the font [draw] has set. *)
Variable measureText : string -> num.

(** One [ctx.fillText(text, x, y)] call. *)
Record FillText : Type := mkFillText { ft_text : string; ft_x : num; ft_y : num }.

(** The [for] loop of lines 145-154; [n] is the loop index, [line] and
    [lines] the two variables it updates. *)
Fixpoint wrapLoop (maxWidth : num) (words : list string) (n : nat)
         (line : string) (lines : list string) : string * list string :=
  match words with
  | [] => (line, lines)
  | w :: rest =>
      let testLine := line ++ w ++ " " in
      if (measureText testLine >? maxWidth) && (0 <? n)%nat
      then wrapLoop maxWidth rest (S n) (w ++ " ") (lines ++ [line])
      else wrapLoop maxWidth rest (S n) testLine lines
  end.

(** Lines 144-155: the loop followed by the last [lines.push(line)]. *)
Definition wrapLines (maxWidth : num) (words : list string) : list string :=
  let '(line, lines) := wrapLoop maxWidth words 0 "" [] in
  lines ++ [line].

(** Lines 160-163: one [fillText] per line, [y] advancing. *)
Fixpoint fillLines (lines : list string) (textX y lineHeight : num)
  : list FillText :=
  match lines with
  | [] => []
  | l :: rest => mkFillText l textX y :: fillLines rest textX (y + lineHeight) lineHeight
  end.

Definition ofNat (n : nat) : num := lit (inject_Z (Z.of_nat n)).

(** Step 3 of [draw] (lines 115-170): the [fillText] calls of the caption.
    An absent or empty [message] is falsy and draws nothing. *)
Definition drawMessage (p : Props num) : list FillText :=
  match message p with
  | None => []
  | Some "" => []
  | Some message =>
      let fontSize := scaleBase p * lit (35 # 1000) in
      let textX := pt_x (messagePos p) * width p in
      let textY := pt_y (messagePos p) * height p in
      let maxWidth := width p * lit (8 # 10) in
      let words := JS.split_space message in
      let y := textY in
      let lineHeight := fontSize * lit (13 # 10) in
      let testWidth := measureText message in
      if testWidth >? maxWidth then
        let lines := wrapLines maxWidth words in
        let y := y - ((ofNat (List.length lines) - lit 1) * lineHeight) / lit 2 in
        fillLines lines textX y lineHeight
      else
        [mkFillText message textX y]
  end.

End Renderer.

Arguments FillText num : clear implicits.

(** The label badge of a slot (lines 251-263); [None] for a colour is
    JavaScript's [undefined]. *)
Module Badge.

Definition pink : string := "#fbcfe8".
Definition colors : list string :=
  ["#bae6fd"; "#bbf7d0"; "#fde68a"; "#ddd6fe"].

(** [colors[i]] for a number [i]: [undefined] unless [i] is an index of
    the array. *)
Definition index (i : JS.number) : option string :=
  match i with
  | JS.Finite z => if (z <? 0)%Z then None else nth_error colors (Z.to_nat z)
  | JS.Infinity _ | JS.NaN => None
  end.

(** [num % colors.length]: the remainder takes the sign of [num], and is
    [NaN] when [num] is [NaN] or an infinity. *)
Definition remLength (num : JS.number) : JS.number :=
  match num with
  | JS.Finite z => JS.Finite (Z.rem z (Z.of_nat (List.length colors)))
  | JS.Infinity _ | JS.NaN => JS.NaN
  end.

Definition badgeText (label : string) : string :=
  if JS.includes label "Day" then "Day 1"
  else JS.replace label "Month " "".

Definition badgeColor (label : string) : option string :=
  if JS.includes label "Day" then Some pink
  else
    let badgeText := JS.replace label "Month " "" in
    let num := JS.parseInt badgeText in
    index (remLength num).

(** The badge is drawn for the slots that are not the centre one. *)
Definition badge {num : Type} (slot : PhotoSlot num)
  : option (string * option string) :=
  if isCenter slot then None
  else Some (badgeText (label slot), badgeColor (label slot)).

End Badge.

(* ================================================================= *)
(** ** The interaction controller (lines 30-33 and 312-396) *)

(** [{ type: 'message' } | { type: 'slot', id: string }] *)
Inductive DragTarget : Type :=
| TargetMessage
| TargetSlot (slotId : string).

Section Controller.

Context {num : Type} `{Number num}.
Local Open Scope num_scope.

(** The four [useState] cells of the component. *)
Record Controller : Type := mkController {
  isDragging : bool;
  dragTarget : option DragTarget;
  lastMousePos : Point num;
  cursorStyle : string
}.

Definition initialController : Controller :=
  mkController false None (mkPoint (lit 0) (lit 0)) "default".

(** A call of one of the two callbacks the host passes in. *)
Inductive Edit : Type :=
| onMessagePosChange (pos : Point num)
| onSlotOffsetChange (slotId : string) (dx dy : num).

(** A [DOMRect] and the client coordinates of a mouse event. *)
Record Rect : Type := mkDOMRect {
  rect_left : num; rect_top : num; rect_width : num; rect_height : num }.

(** Lines 312-324, for a mouse event; no canvas gives the origin. *)
Definition getRelativePos (rect : option Rect) (clientX clientY : num)
  : Point num :=
  match rect with
  | None => mkPoint (lit 0) (lit 0)
  | Some rect =>
      mkPoint ((clientX - rect_left rect) / rect_width rect)
              ((clientY - rect_top rect) / rect_height rect)
  end.

(** Lines 363-390.  The handler reads the state of the render it closes
    over and returns the state after its updates, with the callback it
    has called, if any. *)
Definition handleMouseMove (p : Props num) (st : Controller) (pos : Point num)
  : Controller * option Edit :=
  let cursor := if isDragging st then "grabbing" else "grab" in
  match isDragging st, dragTarget st with
  | true, Some target =>
      let dRelX := pt_x pos - pt_x (lastMousePos st) in
      let dRelY := pt_y pos - pt_y (lastMousePos st) in
      let edit :=
        match target with
        | TargetMessage =>
            onMessagePosChange
              (mkPoint (pt_x (messagePos p) + dRelX) (pt_y (messagePos p) + dRelY))
        | TargetSlot slotId =>
            let dxSlot := (dRelX * width p) / scaleBase p in
            let dySlot := (dRelY * height p) / scaleBase p in
            onSlotOffsetChange slotId dxSlot dySlot
        end in
      (mkController (isDragging st) (dragTarget st) pos cursor, Some edit)
  | _, _ =>
      (mkController (isDragging st) (dragTarget st) (lastMousePos st) cursor, None)
  end.

(** Lines 392-396. *)
Definition handleMouseUp (st : Controller) : Controller :=
  mkController false None (lastMousePos st) "default".

(* --------------------------------------------------------------- *)
(** *** Hit testing (lines 326-361) *)

Context `{MathLib num}.

Definition textDist (p : Props num) (pos : Point num) : num :=
  let textDistX := (pt_x pos - pt_x (messagePos p)) * width p in
  let textDistY := (pt_y pos - pt_y (messagePos p)) * height p in
  Math_sqrt (Math_pow2 textDistX + Math_pow2 textDistY).

(** Line 337 *)
Definition hitsMessage (p : Props num) (pos : Point num) : bool :=
  textDist p pos <? scaleBase p * lit (15 # 100).

Definition slotDist (p : Props num) (pos : Point num) (slot : PhotoSlot num) : num :=
  let pointerPixelX := pt_x pos * width p in
  let pointerPixelY := pt_y pos * height p in
  Math_sqrt (Math_pow2 (pointerPixelX - slotCx p slot)
             + Math_pow2 (pointerPixelY - slotCy p slot)).

Definition holdsImage (slot : PhotoSlot num) : bool :=
  match image slot with Some _ => true | None => false end.

(** Line 355: [dist < r && slot.image] *)
Definition hitsSlot (p : Props num) (pos : Point num) (slot : PhotoSlot num) : bool :=
  (slotDist p pos slot <? slotR p slot) && holdsImage slot.

(** The [for (const slot of slots)] loop, which returns at the first
    slot that passes the test. *)
Fixpoint scanSlots (p : Props num) (pos : Point num) (l : list (PhotoSlot num))
  : option (PhotoSlot num) :=
  match l with
  | [] => None
  | slot :: rest => if hitsSlot p pos slot then Some slot else scanSlots p pos rest
  end.

Definition handleMouseDown (p : Props num) (st : Controller) (pos : Point num)
  : Controller :=
  if hitsMessage p pos then
    mkController true (Some TargetMessage) pos (cursorStyle st)
  else
    match scanSlots p pos (slots p) with
    | Some slot => mkController true (Some (TargetSlot (id slot))) pos (cursorStyle st)
    | None => mkController (isDragging st) (dragTarget st) pos (cursorStyle st)
    end.

(** The state [Idle] of the specification. *)
Definition Idle (st : Controller) : Prop :=
  isDragging st = false /\ dragTarget st = None.

End Controller.

Arguments Controller num : clear implicits.
Arguments Edit num : clear implicits.
Arguments Rect num : clear implicits.

(* ================================================================= *)
(** ** The host component ([App]) *)

Section Host.

Context {num : Type} `{Number num}.
Local Open Scope num_scope.

(** An export preset of [FORMATS]. *)
Record Format : Type := mkFormat {
  fmt_id : string; fmt_label : string; fmt_w : Z; fmt_h : Z; fmt_icon : string }.

Definition FORMATS : list Format :=
  [ mkFormat "sq" "Square (Instagram)" 3000 3000 "square";
    mkFormat "port" "Portrait (Feed)" 2400 3000 "rect-v";
    mkFormat "land" "Landscape (FB)" 3200 1800 "rect-h";
    mkFormat "story" "Story (Full Screen)" 2160 3840 "mobile" ].

(** The state of [App] that reaches the canvas. *)
Record App : Type := mkApp {
  app_slots : list (PhotoSlot num);
  app_message : string;
  app_messagePos : Point num;
  selectedFormat : Format;
  previewWidth : num
}.

(** Lines 106-117 *)
Definition handleUpdateSlotOffset (slotId : string) (dx dy : num)
           (prev : list (PhotoSlot num)) : list (PhotoSlot num) :=
  map (fun slot =>
         if String.eqb (id slot) slotId then
           mkSlot (id slot) (label slot) (image slot) (x slot) (y slot)
                  (radius slot) (isCenter slot)
                  (imageOffsetX slot + dx) (imageOffsetY slot + dy)
         else slot) prev.

(** The props of the [<CollageCanvas>] element (lines 187-197). *)
Definition canvasProps (a : App) : Props num :=
  mkProps (app_slots a)
          (lit (inject_Z (fmt_w (selectedFormat a))))
          (lit (inject_Z (fmt_h (selectedFormat a))))
          (previewWidth a) (Some (app_message a)) (app_messagePos a).

(** What a callback does to the host: [setMessagePos] or
    [handleUpdateSlotOffset]. *)
Definition applyEdit (a : App) (e : option (Edit num)) : App :=
  match e with
  | None => a
  | Some (onMessagePosChange pos) =>
      mkApp (app_slots a) (app_message a) pos (selectedFormat a) (previewWidth a)
  | Some (onSlotOffsetChange slotId dx dy) =>
      mkApp (handleUpdateSlotOffset slotId dx dy (app_slots a))
            (app_message a) (app_messagePos a) (selectedFormat a) (previewWidth a)
  end.

(** One pointer-move event, end to end. *)
Definition pointerMove (a : App) (st : Controller num) (pos : Point num)
  : App * Controller num :=
  let '(st', e) := handleMouseMove (canvasProps a) st pos in
  (applyEdit a e, st').

End Host.

Arguments App num : clear implicits.

(* ================================================================= *)
(** ** Export (lines 398-407 and the [<canvas>] element, lines 409-428) *)

Module ExportAdapter.

(** The document: its elements by tag; an element is named by its
    position, so an element made by [createElement] is a new one. *)
Definition Document : Type := list string.
Definition ElementId : Type := nat.

Definition createElement (tag : string) (doc : Document) : ElementId * Document :=
  (List.length doc, (doc ++ [tag])%list).

(** What the export does to the document; [Paint c] stands for a run of
    the renderer on canvas [c]. *)
Inductive Effect : Type :=
| Created (tag : string) (el : ElementId)
| SetDownload (el : ElementId) (name : string)
| SetHrefToDataURL (el : ElementId) (canvas : ElementId) (type : string) (quality : Q)
| Click (el : ElementId)
| Paint (canvas : ElementId).

Definition showZ (z : Z) : string :=
  if (z <? 0)%Z then "-" ++ JS.showN (Z.abs_N z) else JS.showN (Z.to_N z).

(** Line 403 *)
Definition fileName (width height : Z) : string :=
  "first-year-collage-" ++ showZ width ++ "x" ++ showZ height ++ ".png".

(** [download], with [canvasRef.current] as [canvasRef]. *)
Definition download (doc : Document) (canvasRef : option ElementId)
           (width height : Z) : Document * list Effect :=
  match canvasRef with
  | None => (doc, [])
  | Some canvas =>
      let '(link, doc') := createElement "a" doc in
      (doc', [ Created "a" link;
               SetDownload link (fileName width height);
               SetHrefToDataURL link canvas "image/png" 1;
               Click link ])
  end.

(** [draw] paints [canvasRef.current] too (lines 71-74). *)
Definition draw (canvasRef : option ElementId) : list Effect :=
  match canvasRef with
  | None => []
  | Some canvas => [Paint canvas]
  end.

(** The one [<canvas>] the component mounts: its backing store has the
    preset's pixels, its box on screen the preview size. *)
Record CanvasElement (num : Type) : Type := mkCanvas {
  attr_width : num; attr_height : num;
  box_width : num; box_height : num }.

Definition render {num : Type} `{Number num} (p : Props num) : CanvasElement num :=
  let displayRatio := div (width p) (height p) in
  let displayH := div (displaySize p) displayRatio in
  mkCanvas (width p) (height p) (displaySize p) displayH.

End ExportAdapter.

(* ================================================================= *)
(** ** Definitions the properties are stated with *)

Section SpecWords.

Context {num : Type} `{Number num}.
Local Open Scope num_scope.

(** The inverse of [unitToPixel] as the specification writes it
    (pixels, minus padding, divided by the content size); the source
    names it in a comment (line 344) and compares in pixels instead. *)
Definition pixelToUnit (p : Props num) (q : Point num) : Point num :=
  mkPoint ((pt_x q - paddingX p) / contentSize p)
          ((pt_y q - paddingY p) / contentSize p).

End SpecWords.

(** Strings put end to end, in order. *)
Fixpoint joinStrings (l : list string) : string :=
  match l with
  | [] => ""
  | s :: rest => s ++ joinStrings rest
  end.

(** A word with the space the wrap loop puts after it. *)
Definition spaced (w : string) : string := w ++ " ".

(** The text of a line made of the words [ws]. *)
Definition lineOf (ws : list string) : string := joinStrings (map spaced ws).

Definition endsWithSpace (s : string) : Prop := exists s', s = s' ++ " ".

Definition Qpoint_eq (a b : Point Q) : Prop :=
  pt_x a == pt_x b /\ pt_y a == pt_y b.

(** The value of a decimal numeral read from its first digit on, [acc]
    being the value of the digits already read. *)
Fixpoint uintZ (d : Decimal.uint) (acc : Z) : Z :=
  match d with
  | Decimal.Nil => acc
  | Decimal.D0 l => uintZ l (10 * acc)
  | Decimal.D1 l => uintZ l (10 * acc + 1)
  | Decimal.D2 l => uintZ l (10 * acc + 2)
  | Decimal.D3 l => uintZ l (10 * acc + 3)
  | Decimal.D4 l => uintZ l (10 * acc + 4)
  | Decimal.D5 l => uintZ l (10 * acc + 5)
  | Decimal.D6 l => uintZ l (10 * acc + 6)
  | Decimal.D7 l => uintZ l (10 * acc + 7)
  | Decimal.D8 l => uintZ l (10 * acc + 8)
  | Decimal.D9 l => uintZ l (10 * acc + 9)
  end%Z.

(** Strings of decimal digits. *)
Definition isDigit (c : ascii) : bool :=
  match JS.digitValue 10 c with Some _ => true | None => false end.

Fixpoint allDigits (s : string) : bool :=
  match s with
  | EmptyString => true
  | String c s' => isDigit c && allDigits s'
  end.

(** The rectangle [d] covers the bounding square of the circle of centre
    [(cx, cy)] and radius [r]. *)
Definition coversSquare (d : DrawRect Q) (cx cy r : Q) : Prop :=
  offsetX d <= cx - r /\ cx + r <= offsetX d + drawWidth d /\
  offsetY d <= cy - r /\ cy + r <= offsetY d + drawHeight d.

(** The rectangle [d] has its centre at [(cx, cy)]. *)
Definition centredOn (d : DrawRect Q) (cx cy : Q) : Prop :=
  offsetX d + drawWidth d / 2 == cx /\ offsetY d + drawHeight d / 2 == cy.

(** The dimension rule as the specification words it: exactly one
    dimension is [2r], the width for [a > 1], otherwise the height. *)
Definition widthIfWide (img : Image Q) (r : Q) (d : DrawRect Q) : Prop :=
  (1 < imgAspect img -> drawWidth d == 2 * r /\ ~ drawHeight d == 2 * r) /\
  (imgAspect img <= 1 -> drawHeight d == 2 * r /\ ~ drawWidth d == 2 * r).

(** The pointer delta of a move, as fractions of the displayed canvas
    ([dRelX], [dRelY] of lines 374-375). *)
Definition dRel {num : Type} `{Number num} (st : Controller num) (pos : Point num)
  : Point num :=
  mkPoint (sub (pt_x pos) (pt_x (lastMousePos st)))
          (sub (pt_y pos) (pt_y (lastMousePos st))).

(** The host with another preview width. *)
Definition withPreview {num : Type} (a : App num) (pw : num) : App num :=
  mkApp (app_slots a) (app_message a) (app_messagePos a) (selectedFormat a) pw.

(** Everything of a slot but its pan offset. *)
Definition sameButOffset {num : Type} (s s' : PhotoSlot num) : Prop :=
  id s' = id s /\ label s' = label s /\ image s' = image s /\
  x s' = x s /\ y s' = y s /\ radius s' = radius s /\ isCenter s' = isCenter s.

(** Some concrete inputs. *)
Module Sample.

Definition monospace (s : string) : Q :=
  inject_Z (Z.of_nat (String.length s)) * 50.

Definition canvas (m : string) : Props Q :=
  mkProps [] 3000 3000 600 (Some m) (mkPoint (1 # 2) (92 # 100)).

Definition wide : Image Q := mkImage 2 1.
Definition square : Image Q := mkImage 1 1.

(** The ring slot at twelve o'clock, holding an image of 4000 x 2000. *)
Definition ringSlot {num : Type} `{Number num} : PhotoSlot num :=
  mkSlot "slot-0" "Day 1"
         (Some (mkImage (lit 4000) (lit 2000)))
         (lit (1 # 2)) (lit (14 # 100)) (lit (8 # 100)) false (lit 0) (lit 0).

(** The centre slot, holding a square image. *)
Definition heroSlot {num : Type} `{Number num} : PhotoSlot num :=
  mkSlot "birthday" "1st Birthday"
         (Some (mkImage (lit 1000) (lit 1000)))
         (lit (1 # 2)) (lit (1 # 2)) (lit (16 # 100)) true (lit 0) (lit 0).

(** A 3000 x 3000 target with the caption anchored at [anchor]. *)
Definition props {num : Type} `{Number num} (anchor : Point num) : Props num :=
  mkProps [ringSlot; heroSlot] (lit 3000) (lit 3000) (lit 600)
          (Some "Happy 1st Birthday!") anchor.

Definition app : App Q :=
  mkApp [ringSlot; heroSlot] "Happy 1st Birthday!" (mkPoint (1 # 2) (92 # 100))
        (mkFormat "sq" "Square (Instagram)" 3000 3000 "square") 600.

(** The same host in any arithmetic, on a square target of [side] pixels,
    its ring slot already panned by [dx0]. *)
Definition host {num : Type} `{Number num} (side : Z) (dx0 : num) : App num :=
  mkApp [mkSlot "slot-0" "Day 1" (Some (mkImage (lit 4000) (lit 2000)))
                (lit (1 # 2)) (lit (14 # 100)) (lit (8 # 100)) false dx0 (lit 0);
         heroSlot]
        "Happy 1st Birthday!" (mkPoint (lit (1 # 2)) (lit (92 # 100)))
        (mkFormat "sq" "Square (Instagram)" side side "square") (lit 600).

(** The pointer over the ring slot at the horizontal fraction [px]. *)
Definition pointer {num : Type} `{Number num} (px : num) : Point num :=
  mkPoint px (lit (14 # 100)).

(** The controller while the ring slot is dragged, the last pointer position
    at the horizontal fraction [px]. *)
Definition grabbed {num : Type} `{Number num} (px : num) : Controller num :=
  mkController true (Some (TargetSlot "slot-0")) (pointer px) "grab".

End Sample.

(** The horizontal pan offset of the slot with the given id. *)
Definition panOffsetX {num : Type} (slotId : string) (slots : list (PhotoSlot num))
  : option num :=
  option_map (@imageOffsetX num)
             (find (fun s => String.eqb (id s) slotId) slots).

(* ================================================================= *)
(** ** The host: uploads, the initial slots, progress, caption suggestion *)

(** [Math.cos], [Math.sin] and [Math.PI]. *)
Class Trig (num : Type) : Type := {
  Math_cos : num -> num;
  Math_sin : num -> num;
  Math_PI : num
}.

Section HostState.

Context {num : Type} `{Number num}.
Local Open Scope num_scope.

(** [handleUpload] (lines 89-104) at the point the decoded image arrives
    ([img.onload]): the slot gets the image and its pan is reset. *)
Definition handleUpload (slotId : string) (img : Image num)
           (prev : list (PhotoSlot num)) : list (PhotoSlot num) :=
  map (fun slot =>
         if String.eqb (id slot) slotId then
           mkSlot (id slot) (label slot) (Some img) (x slot) (y slot)
                  (radius slot) (isCenter slot) (lit 0) (lit 0)
         else slot) prev.

(** Line 126 *)
Definition completedCount (slots : list (PhotoSlot num)) : nat :=
  List.length (filter (fun s => holdsImage s) slots).

(** The two ways the host changes its slots. *)
Inductive HostAction : Type :=
| UploadDone (slotId : string) (img : Image num)
| SlotOffset (slotId : string) (dx dy : num).

Definition hostStep (slots : list (PhotoSlot num)) (a : HostAction)
  : list (PhotoSlot num) :=
  match a with
  | UploadDone slotId img => handleUpload slotId img slots
  | SlotOffset slotId dx dy => handleUpdateSlotOffset slotId dx dy slots
  end.

Definition hostRun (slots : list (PhotoSlot num)) (actions : list HostAction)
  : list (PhotoSlot num) :=
  fold_left hostStep actions slots.

(** Pointer moves one after the other, each seeing the host and the
    controller the one before has left. *)
Fixpoint pointerMoves (a : App num) (st : Controller num) (path : list (Point num))
  : App num * Controller num :=
  match path with
  | [] => (a, st)
  | pos :: rest =>
      let '(a', st') := pointerMove a st pos in
      pointerMoves a' st' rest
  end.

(** What [generateContent] of the text service came to: it threw or
    rejected, or it answered with a text that may be absent. *)
Inductive Generated : Type :=
| Rejected
| Answered (text : option string).

(** [generateBirthdayMessage] of the caption service: [text || fallback]
    inside [try], the other fallback in [catch]. *)
Definition generateBirthdayMessage (r : Generated) : string :=
  match r with
  | Answered (Some "") => "Happy 1st Birthday to our little sunshine!"
  | Answered (Some text) => text
  | Answered None => "Happy 1st Birthday to our little sunshine!"
  | Rejected => "Happy 1st Birthday! One year of love and joy."
  end.

(** Lines 119-124: the caption becomes the generated message. *)
Definition handleGenerateMessage (a : App num) (r : Generated) : App num :=
  mkApp (app_slots a) (generateBirthdayMessage r) (app_messagePos a)
        (selectedFormat a) (previewWidth a).

(* --------------------------------------------------------------- *)
(** *** The initial slots (lines 8-54) *)

Context `{Trig num}.

Definition CENTER_X : num := lit (1 # 2).
Definition CENTER_Y : num := lit (1 # 2).
Definition OUTER_RADIUS : num := lit (36 # 100).
Definition SLOT_RADIUS : num := lit (8 # 100).
Definition CENTER_RADIUS : num := lit (16 # 100).

Definition LABELS : list string :=
  [ "Day 1"; "Month 1"; "Month 2"; "Month 3";
    "Month 4"; "Month 5"; "Month 6"; "Month 7";
    "Month 8"; "Month 9"; "Month 10"; "Month 11" ].

(** [LABELS.forEach((label, index) => INITIAL_SLOTS.push(...))] from
    [index] on. *)
Fixpoint pushRing (labels : list string) (index : nat) : list (PhotoSlot num) :=
  match labels with
  | [] => []
  | label :: rest =>
      let angleDeg := ofNat index * lit 30 - lit 90 in
      let angleRad := (angleDeg * Math_PI) / lit 180 in
      mkSlot ("slot-" ++ JS.showN (N.of_nat index)) label None
             (CENTER_X + OUTER_RADIUS * Math_cos angleRad)
             (CENTER_Y + OUTER_RADIUS * Math_sin angleRad)
             SLOT_RADIUS false (lit 0) (lit 0)
      :: pushRing rest (S index)
  end.

Definition INITIAL_SLOTS : list (PhotoSlot num) :=
  (pushRing LABELS 0
   ++ [mkSlot "birthday" "1st Birthday" None CENTER_X CENTER_Y CENTER_RADIUS
              true (lit 0) (lit 0)])%list.

End HostState.

Arguments HostAction num : clear implicits.

(** [Math.round]: the nearest integer, halves going up. *)
Definition Math_round (q : Q) : Z := Qfloor (q + (1 # 2)).

(** Line 127; [None] is the [NaN] of an empty slot list. *)
Definition progress (slots : list (PhotoSlot Q)) : option Z :=
  match List.length slots with
  | O => None
  | S _ =>
      Some (Math_round
              (inject_Z (Z.of_nat (completedCount slots))
               / inject_Z (Z.of_nat (List.length slots)) * 100))
  end.

(* ================================================================= *)
(** ** The renderer: the dot grid (lines 83-95) *)

Section Dots.

Local Open Scope Q_scope.

Record Dot : Type := mkDot { dot_x : Q; dot_y : Q; dot_radius : Q }.

Definition dotSpacing (p : Props Q) : Q := scaleBase p * (5 # 100).

(** Line 89; a remainder by zero is [NaN], which is not [0]. *)
Definition dotTest (p : Props Q) (i j : Q) : bool :=
  let m := Math_round (dotSpacing p * 2) in
  if (m =? 0)%Z then false
  else (Z.rem (Math_round i + Math_round j) m =? 0)%Z.

(** The inner loop from [j] on; [None] when it is still running after
    [fuel] iterations. *)
Fixpoint dotColumn (p : Props Q) (i : Q) (fuel : nat) (j : Q) : option (list Dot) :=
  if lt j (height p) then
    match fuel with
    | O => None
    | S fuel' =>
        match dotColumn p i fuel' (j + dotSpacing p) with
        | Some rest =>
            Some (if dotTest p i j
                  then mkDot i j (scaleBase p * (3 # 1000)) :: rest
                  else rest)
        | None => None
        end
    end
  else Some [].

(** The outer loop from [i] on, each inner loop with [fuelJ] iterations
    at most. *)
Fixpoint dotRows (p : Props Q) (fuelJ fuel : nat) (i : Q) : option (list Dot) :=
  if lt i (width p) then
    match fuel with
    | O => None
    | S fuel' =>
        match dotColumn p i fuelJ 0, dotRows p fuelJ fuel' (i + dotSpacing p) with
        | Some column, Some rest => Some (column ++ rest)%list
        | _, _ => None
        end
    end
  else Some [].

Definition drawDots (p : Props Q) (fuel : nat) : option (list Dot) :=
  dotRows p fuel fuel 0.

End Dots.

(* ================================================================= *)
(** ** The renderer: one slot (lines 173-302) *)

Section DrawSlot.

Context {num : Type} `{Number num} `{Trig num}.
Local Open Scope num_scope.

(** The calls on the 2D context; a font is kept as its weight and its
    size in pixels, the family being the same everywhere. *)
Inductive Cmd : Type :=
| save
| restore
| set_shadowColor (c : string)
| set_shadowBlur (v : num)
| set_shadowOffsetX (v : num)
| set_shadowOffsetY (v : num)
| beginPath
| arc (cx cy r startAngle endAngle : num)
| set_fillStyle (c : option string)
| fill
| clip
| drawImage (img : Image num) (d : DrawRect num)
| set_strokeStyle (c : string)
| set_lineWidth (v : num)
| setLineDash (segments : list num)
| stroke
| set_font (weight : Z) (px : num)
| set_textAlign (a : string)
| set_textBaseline (b : string)
| fillText (text : string) (tx ty : num).

(** Lines 204-246: the image, or the placeholder. *)
Definition drawPhoto (p : Props num) (slot : PhotoSlot num) : list Cmd :=
  let cx := slotCx p slot in
  let cy := slotCy p slot in
  let r := slotR p slot in
  match image slot with
  | Some img =>
      [ drawImage img (applyPan p slot (aspectFill img cx cy r)) ]
  | None =>
      [ set_fillStyle (Some "#f8fafc"); fill;
        set_strokeStyle "#e2e8f0"; set_lineWidth (lit 2);
        setLineDash [lit 10; lit 10]; stroke; setLineDash [];
        set_fillStyle (Some "#94a3b8"); set_font 500 (r * lit (3 # 10));
        set_textAlign "center"; set_textBaseline "middle";
        fillText "+" cx cy ]
  end.

(** Lines 250-301: the badge of a ring slot, or the rim of the centre. *)
Definition drawDecoration (p : Props num) (slot : PhotoSlot num) : list Cmd :=
  let cx := slotCx p slot in
  let cy := slotCy p slot in
  let r := slotR p slot in
  if negb (isCenter slot) then
    let badgeText := Badge.badgeText (label slot) in
    let badgeColor := Badge.badgeColor (label slot) in
    let badgeAngle := Math_PI / lit 4 in
    let badgeDist := r in
    let badgeX := cx + Math_cos badgeAngle * badgeDist in
    let badgeY := cy + Math_sin badgeAngle * badgeDist in
    let badgeRadius := r * lit (35 # 100) in
    let fontSize := if (2 <? String.length badgeText)%nat
                    then badgeRadius * lit (7 # 10)
                    else badgeRadius * lit (12 # 10) in
    [ save;
      set_shadowColor "rgba(0,0,0,0.1)"; set_shadowBlur (lit 4);
      beginPath; arc badgeX badgeY badgeRadius (lit 0) (Math_PI * lit 2);
      set_fillStyle badgeColor; fill;
      set_strokeStyle "#ffffff"; set_lineWidth (scaleBase p * lit (5 # 1000));
      stroke;
      set_fillStyle (Some "#475569"); set_font 700 fontSize;
      set_shadowColor "transparent";
      set_textAlign "center"; set_textBaseline "middle";
      fillText badgeText badgeX (badgeY + badgeRadius * lit (1 # 10));
      restore ]
  else
    [ save; beginPath;
      arc cx cy (r + scaleBase p * lit (15 # 1000)) (lit 0) (Math_PI * lit 2);
      set_strokeStyle "#fbbf24"; set_lineWidth (scaleBase p * lit (5 # 1000));
      stroke; restore ].

(** The body of [slots.forEach] for one slot. *)
Definition drawSlot (p : Props num) (slot : PhotoSlot num) : list Cmd :=
  let cx := slotCx p slot in
  let cy := slotCy p slot in
  let r := slotR p slot in
  ([ save;
     set_shadowColor "rgba(0,0,0,0.15)";
     set_shadowBlur (scaleBase p * lit (2 # 100));
     set_shadowOffsetX (scaleBase p * lit (5 # 1000));
     set_shadowOffsetY (scaleBase p * lit (5 # 1000));
     beginPath;
     arc cx cy (r + scaleBase p * lit (15 # 1000)) (lit 0) (Math_PI * lit 2);
     set_fillStyle (Some "#ffffff"); fill;
     set_shadowColor "transparent";
     beginPath; arc cx cy r (lit 0) (Math_PI * lit 2); clip ]
   ++ drawPhoto p slot
   ++ [ restore ]
   ++ drawDecoration p slot)%list.

(** Step 4 of [draw]. *)
Definition drawSlots (p : Props num) : list Cmd :=
  flat_map (drawSlot p) (slots p).

(** What of the context's state a clip touches: the stack of [save] and
    whether a clip region is in force.  [restore] on an empty stack does
    nothing. *)
Definition ClipState : Type := (list bool * bool)%type.

Definition clipStep (s : ClipState) (c : Cmd) : ClipState :=
  match c with
  | save => (snd s :: fst s, snd s)
  | restore =>
      match fst s with
      | saved :: stack => (stack, saved)
      | [] => s
      end
  | clip => (fst s, true)
  | _ => s
  end.

(** The commands, each with whether a clip region is in force when it
    runs, and the state at the end. *)
Fixpoint clipTrace (s : ClipState) (cmds : list Cmd) : list (Cmd * bool) * ClipState :=
  match cmds with
  | [] => ([], s)
  | c :: rest =>
      let '(trace, s') := clipTrace (clipStep s c) rest in
      ((c, snd s) :: trace, s')
  end.


Definition isText (c : Cmd) : bool :=
  match c with fillText _ _ _ => true | _ => false end.

End DrawSlot.

Arguments Cmd num : clear implicits.

(* ================================================================= *)
(** ** What a good wrap is *)

Section WrapWords.

Context {num : Type} `{Number num}.
Variable measureText : string -> num.
Variable maxWidth : num.

(** A line fits, or it is one word on its own (a word wider than the
    maximum cannot be broken). *)
Definition lineFits (g : list string) : Prop :=
  lt maxWidth (measureText (lineOf g)) = false \/ exists w, g = [w].

(** Every line break was forced: the first word of the next line would
    not have fitted at the end of the line before. *)
Fixpoint breaksForced (groups : list (list string)) : Prop :=
  match groups with
  | [] => True
  | g :: rest =>
      match rest with
      | (w :: _) :: _ => lt maxWidth (measureText (lineOf (g ++ [w]))) = true
      | _ => True
      end /\ breaksForced rest
  end.

End WrapWords.

(* ================================================================= *)
(** * Properties *)

Unset Implicit Arguments.

(* ================================================================= *)
(** ** The content square and the unit-space mapping *)

Section ContentSquare.

Local Open Scope Q_scope.

Lemma lt_Q (a b : Q) : lt a b = true <-> a < b.
Proof.
  simpl. rewrite negb_true_iff. split; intro E.
  - apply Qnot_le_lt. intro L. apply Qle_bool_iff in L. congruence.
  - destruct (Qle_bool b a) eqn:B; [|reflexivity].
    apply Qle_bool_iff in B. exfalso. apply (Qlt_not_le _ _ E B).
Qed.

Lemma lt_Q_false (a b : Q) : lt a b = false <-> b <= a.
Proof.
  simpl. rewrite negb_false_iff. apply Qle_bool_iff.
Qed.

Lemma contentSize_min (p : Props Q) : contentSize p = Qmin (width p) (height p).
Proof. reflexivity. Qed.

(** The mapping of [draw] and of [handleMouseDown] is [unitToPixel] at
    the slot's centre. *)
Lemma slot_centre_unitToPixel (p : Props Q) (slot : PhotoSlot Q) :
  unitToPixel p (mkPoint (x slot) (y slot)) = mkPoint (slotCx p slot) (slotCy p slot).
Proof. reflexivity. Qed.

(** C1.  On a target with [min(width, height) > 0], mapping a unit-space
    point to pixels ([paddingX + ux * contentSize], [paddingY + uy *
    contentSize]) and back (minus padding, divided by [contentSize]) gives
    the point again, and so does pixels to unit space and back; in exact
    arithmetic this holds at every point, inside the content square or
    not. *)
Theorem unit_pixel_roundtrip (p : Props Q) (u : Point Q) :
  0 < Qmin (width p) (height p) ->
  Qpoint_eq (pixelToUnit p (unitToPixel p u)) u /\
  Qpoint_eq (unitToPixel p (pixelToUnit p u)) u.
Proof.
  intro Hpos.
  unfold Qpoint_eq, pixelToUnit, unitToPixel, paddingX, paddingY,
    contentSize, scaleBase. simpl.
  set (c := Qmin (width p) (height p)) in *.
  assert (Hc : ~ c == 0) by (intro E; rewrite E in Hpos; discriminate).
  repeat split; field; exact Hc.
Qed.

Lemma unit_pixel_roundtrip_witness :
  0 < Qmin 3200 1800 /\
  Qpoint_eq
    (pixelToUnit (mkProps [] 3200 1800 600 None (mkPoint 0 0))
       (unitToPixel (mkProps [] 3200 1800 600 None (mkPoint 0 0))
          (mkPoint (1 # 2) (14 # 100))))
    (mkPoint (1 # 2) (14 # 100)).
Proof.
  split; [reflexivity|].
  apply (unit_pixel_roundtrip (mkProps [] 3200 1800 600 None (mkPoint 0 0))
           (mkPoint (1 # 2) (14 # 100))).
  reflexivity.
Defined.

End ContentSquare.

(* ================================================================= *)
(** ** Aspect fill *)

Section AspectFill.

Local Open Scope Q_scope.

Lemma imgAspect_pos (img : Image Q) :
  0 < img_width img -> 0 < img_height img -> 0 < imgAspect img.
Proof.
  intros Hw Hh. unfold imgAspect. simpl.
  apply Qlt_shift_div_l; [exact Hh|]. lra.
Qed.

Lemma Qle_div_small (t a : Q) : 0 <= t -> 0 < a -> a <= 1 -> t <= t / a.
Proof.
  intros Ht Ha Ha1. apply Qle_shift_div_l; [exact Ha|]. nra.
Qed.

Lemma Qlt_div_small (t a : Q) : 0 < t -> 0 < a -> a < 1 -> t < t / a.
Proof.
  intros Ht Ha Ha1. apply Qlt_shift_div_l; [exact Ha|]. nra.
Qed.

(** The wide branch (lines 213-216). *)
Lemma aspectFill_wide (img : Image Q) (cx cy r : Q) :
  1 < imgAspect img ->
  aspectFill img cx cy r =
  mkRect (cx - r * 2 * imgAspect img / 2) (cy - r) (r * 2 * imgAspect img) (r * 2).
Proof.
  intro Ha. unfold aspectFill, drawAspect.
  change (lit 1) with 1. change (lit 2) with 2.
  apply lt_Q in Ha. rewrite Ha. reflexivity.
Qed.

(** The other branch (lines 218-221). *)
Lemma aspectFill_tall (img : Image Q) (cx cy r : Q) :
  imgAspect img <= 1 ->
  aspectFill img cx cy r =
  mkRect (cx - r) (cy - r * 2 / imgAspect img / 2) (r * 2) (r * 2 / imgAspect img).
Proof.
  intro Ha. unfold aspectFill, drawAspect.
  change (lit 1) with 1. change (lit 2) with 2.
  apply lt_Q_false in Ha. rewrite Ha. reflexivity.
Qed.

(** C2 as the specification words it fails: a 2:1 image is wider than
    square and it is its height, not its width, that is [2r]; and a square
    image has both dimensions equal to [2r]. *)
Lemma aspectFill_not_widthIfWide :
  ~ widthIfWide Sample.wide 240 (aspectFill Sample.wide 0 0 240) /\
  ~ widthIfWide Sample.square 240 (aspectFill Sample.square 0 0 240).
Proof.
  split; intros [Hwide Htall].
  - destruct Hwide as [Hw _]; [reflexivity|]. vm_compute in Hw. discriminate.
  - destruct Htall as [_ Hn]; [vm_compute; discriminate|].
    apply Hn. reflexivity.
Qed.

(** C2, amended.  For an image of positive dimensions and a radius
    [r >= 0], the rectangle computed before the pan offset covers the
    bounding square of the circle and is centred on the circle; the height
    is [2r] if [a > 1], otherwise the width is [2r]; the other dimension
    is larger, strictly so when [r > 0] and [a <> 1], and both are [2r]
    when [a = 1]. *)
Theorem aspectFill_covers (img : Image Q) (cx cy r : Q) :
  0 < img_width img -> 0 < img_height img -> 0 <= r ->
  coversSquare (aspectFill img cx cy r) cx cy r /\
  centredOn (aspectFill img cx cy r) cx cy /\
  2 * r <= drawWidth (aspectFill img cx cy r) /\
  2 * r <= drawHeight (aspectFill img cx cy r) /\
  (1 < imgAspect img ->
     drawHeight (aspectFill img cx cy r) == 2 * r /\
     (0 < r -> 2 * r < drawWidth (aspectFill img cx cy r))) /\
  (imgAspect img <= 1 ->
     drawWidth (aspectFill img cx cy r) == 2 * r /\
     (0 < r -> imgAspect img < 1 -> 2 * r < drawHeight (aspectFill img cx cy r)) /\
     (imgAspect img == 1 -> drawHeight (aspectFill img cx cy r) == 2 * r)).
Proof.
  intros Hw Hh Hr.
  pose proof (imgAspect_pos img Hw Hh) as Ha.
  destruct (Qlt_le_dec 1 (imgAspect img)) as [Hwide | Htall].
  - rewrite (aspectFill_wide img cx cy r Hwide).
    set (a := imgAspect img) in *.
    unfold coversSquare, centredOn. cbn [offsetX offsetY drawWidth drawHeight].
    assert (Hd : 2 * r <= r * 2 * a) by nra.
    repeat split; intros; try lra; try nra; try (field_simplify; lra).
  - rewrite (aspectFill_tall img cx cy r Htall).
    set (a := imgAspect img) in *.
    unfold coversSquare, centredOn. cbn [offsetX offsetY drawWidth drawHeight].
    assert (Hd : r * 2 <= r * 2 / a) by (apply Qle_div_small; lra).
    assert (Hs : 0 < r -> a < 1 -> r * 2 < r * 2 / a)
      by (intros; apply Qlt_div_small; lra).
    assert (He : a == 1 -> r * 2 / a == 2 * r)
      by (intro E; rewrite E; field).
    set (t := r * 2 / a) in *. clearbody t.
    assert (Hh2 : t / 2 == t * (1 # 2)) by field.
    repeat split; intros; auto; try rewrite Hh2; try lra; try field.
Qed.

Lemma aspectFill_covers_witness :
  0 < img_width Sample.wide /\ 0 < img_height Sample.wide /\ 0 <= 240 /\
  coversSquare (aspectFill Sample.wide 1500 420 240) 1500 420 240.
Proof.
  split; [reflexivity|]. split; [reflexivity|]. split; [discriminate|].
  exact (proj1 (aspectFill_covers Sample.wide 1500 420 240
                  (eq_refl : 0 < img_width Sample.wide)
                  (eq_refl : 0 < img_height Sample.wide)
                  (fun E : (0 ?= 240) = Gt => ltac:(discriminate E)))).
Defined.

End AspectFill.

(* ================================================================= *)
(** ** Which dimension fills the circle *)

Section Orientation.

Local Open Scope Q_scope.

Lemma Qmin_square (w h c : Q) : w == c -> h == c -> Qmin w h == c.
Proof.
  intros Hw Hh.
  destruct (Q.min_spec w h) as [[_ E] | [_ E]]; rewrite E; assumption.
Qed.

(** The height of the [drawImage] call of a slot is the height of the
    placement: the pan offset moves the rectangle only. *)
Lemma drawSlotImage_height (p : Props Q) (slot : PhotoSlot Q) (img : Image Q) :
  image slot = Some img ->
  exists d, drawSlotImage p slot = Some d /\
    drawHeight d =
    drawHeight (aspectFill img (slotCx p slot) (slotCy p slot) (slotR p slot)) /\
    drawWidth d =
    drawWidth (aspectFill img (slotCx p slot) (slotCy p slot) (slotR p slot)).
Proof.
  intro Hi. unfold drawSlotImage. rewrite Hi.
  eexists. split; [reflexivity|]. split; reflexivity.
Qed.

(** C3.  An image wider than square ([a > 1]) is drawn with height [2r]
    and width [a] times that, centred horizontally on the circle and
    starting at its top; an image with [a <= 1] is drawn with width [2r] and
    height that over [a], centred vertically and starting at the circle's
    left.  A 2:1 image in a slot of unit radius
    0.08 on a 3000 x 3000 canvas is drawn 480 pixels high, whatever the pan
    offset; in binary64 arithmetic the value is 480 exactly as well. *)
Theorem aspectFill_orientation :
  (forall (img : Image Q) (cx cy r : Q),
      0 < img_width img -> 0 < img_height img -> 1 < imgAspect img ->
      drawHeight (aspectFill img cx cy r) == 2 * r /\
      offsetX (aspectFill img cx cy r) + drawWidth (aspectFill img cx cy r) / 2 == cx /\
      offsetY (aspectFill img cx cy r) == cy - r /\
      drawWidth (aspectFill img cx cy r)
      == drawHeight (aspectFill img cx cy r) * imgAspect img) /\
  (forall (img : Image Q) (cx cy r : Q),
      0 < img_width img -> 0 < img_height img -> imgAspect img <= 1 ->
      drawWidth (aspectFill img cx cy r) == 2 * r /\
      offsetY (aspectFill img cx cy r) + drawHeight (aspectFill img cx cy r) / 2 == cy /\
      offsetX (aspectFill img cx cy r) == cx - r /\
      drawHeight (aspectFill img cx cy r)
      == drawWidth (aspectFill img cx cy r) / imgAspect img) /\
  (forall (p : Props Q) (slot : PhotoSlot Q) (img : Image Q),
      width p == 3000 -> height p == 3000 -> radius slot == 8 # 100 ->
      image slot = Some img ->
      0 < img_height img -> img_width img == 2 * img_height img ->
      exists d, drawSlotImage p slot = Some d /\ drawHeight d == 480) /\
  option_map (@drawHeight float)
    (drawSlotImage (Sample.props (mkPoint (lit (1 # 2)) (lit (92 # 100))))
                   Sample.ringSlot)
  = Some (Binary64.ofZ 480).
Proof.
  split; [|split; [|split]].
  - intros img cx cy r _ _ Ha.
    rewrite (aspectFill_wide img cx cy r Ha).
    cbn [offsetX offsetY drawWidth drawHeight].
    repeat split; field.
  - intros img cx cy r Hw Hh Ha.
    pose proof (imgAspect_pos img Hw Hh) as Hpos.
    rewrite (aspectFill_tall img cx cy r Ha).
    cbn [offsetX offsetY drawWidth drawHeight].
    repeat split; field; intro E; rewrite E in Hpos; discriminate.
  - intros p slot img Hw Hh Hr Hi Hpos H21.
    destruct (drawSlotImage_height p slot img Hi) as [d [Hd [Hh' _]]].
    exists d. split; [exact Hd|]. rewrite Hh'.
    assert (Ha : 1 < imgAspect img).
    { unfold imgAspect. simpl. apply Qlt_shift_div_l; [exact Hpos|]. lra. }
    rewrite (aspectFill_wide img _ _ _ Ha).
    cbn [drawHeight]. unfold slotR, contentSize, scaleBase. simpl.
    rewrite (Qmin_square _ _ 3000 Hw Hh), Hr. reflexivity.
  - vm_compute. reflexivity.
Qed.

Lemma aspectFill_orientation_witness :
  0 < img_width Sample.wide /\ 0 < img_height Sample.wide /\
  1 < imgAspect Sample.wide /\
  drawHeight (aspectFill Sample.wide 1500 420 240) == 2 * 240.
Proof.
  split; [reflexivity|]. split; [reflexivity|]. split; [reflexivity|].
  exact (proj1 (proj1 aspectFill_orientation Sample.wide 1500 420 240
                  (eq_refl : 0 < img_width Sample.wide)
                  (eq_refl : 0 < img_height Sample.wide)
                  (eq_refl : 1 < imgAspect Sample.wide))).
Defined.

End Orientation.

(* ================================================================= *)
(** ** Dragging a slot *)

Section Pan.

Local Open Scope Q_scope.

(** While a slot is dragged, a move calls [onSlotOffsetChange] with the
    delta scaled by the canvas size over [scaleBase], and records the
    pointer position. *)
Lemma handleMouseMove_slot (p : Props Q) (st : Controller Q) (pos : Point Q)
      (slotId : string) :
  isDragging st = true -> dragTarget st = Some (TargetSlot slotId) ->
  handleMouseMove p st pos =
  (mkController true (Some (TargetSlot slotId)) pos "grabbing",
   Some (onSlotOffsetChange slotId
           (pt_x (dRel st pos) * width p / scaleBase p)
           (pt_y (dRel st pos) * height p / scaleBase p))).
Proof.
  intros Hd Ht. unfold handleMouseMove. rewrite Hd, Ht. reflexivity.
Qed.

Lemma handleUpdateSlotOffset_spec (slotId : string) (dx dy : Q)
      (prev : list (PhotoSlot Q)) :
  Forall2 (fun s s' =>
             sameButOffset s s' /\
             if String.eqb (id s) slotId
             then imageOffsetX s' = imageOffsetX s + dx /\
                  imageOffsetY s' = imageOffsetY s + dy
             else s' = s)
          prev (handleUpdateSlotOffset slotId dx dy prev).
Proof.
  induction prev as [|s rest IH]; simpl; constructor; [|exact IH].
  unfold sameButOffset.
  destruct (String.eqb (id s) slotId); simpl; repeat split; reflexivity.
Qed.

Lemma square_delta (d w h : Q) : w == h -> 0 < w -> d * w / Qmin w h == d.
Proof.
  intros E Hw. rewrite (Qmin_square w h w (Qeq_refl w) (Qeq_sym _ _ E)).
  field. intro Z. rewrite Z in Hw. discriminate.
Qed.

Lemma square_delta_y (d w h : Q) : w == h -> 0 < w -> d * h / Qmin w h == d.
Proof.
  intros E Hw. rewrite (Qmin_square w h h E (Qeq_refl h)).
  field. intro Z. rewrite E, Z in Hw. discriminate.
Qed.

(** The same two steps in any arithmetic. *)
Lemma handleMouseMove_slot_any {num : Type} {N : Number num} (p : Props num)
      (st : Controller num) (pos : Point num) (slotId : string) :
  isDragging st = true -> dragTarget st = Some (TargetSlot slotId) ->
  handleMouseMove p st pos =
  (mkController true (Some (TargetSlot slotId)) pos "grabbing",
   Some (onSlotOffsetChange slotId
           (pt_x (dRel st pos) * width p / scaleBase p)%num
           (pt_y (dRel st pos) * height p / scaleBase p)%num)).
Proof.
  intros Hd Ht. unfold handleMouseMove. rewrite Hd, Ht. reflexivity.
Qed.

Lemma handleUpdateSlotOffset_any {num : Type} {N : Number num} (slotId : string)
      (dx dy : num) (prev : list (PhotoSlot num)) :
  Forall2 (fun s s' =>
             sameButOffset s s' /\
             if String.eqb (id s) slotId
             then imageOffsetX s' = (imageOffsetX s + dx)%num /\
                  imageOffsetY s' = (imageOffsetY s + dy)%num
             else s' = s)
          prev (handleUpdateSlotOffset slotId dx dy prev).
Proof.
  induction prev as [|s rest IH]; simpl; constructor; [|exact IH].
  unfold sameButOffset.
  destruct (String.eqb (id s) slotId); simpl; repeat split; reflexivity.
Qed.

Lemma pointerMove_slot_any {num : Type} {N : Number num} (a : App num)
      (st : Controller num) (pos : Point num) (slotId : string) :
  isDragging st = true -> dragTarget st = Some (TargetSlot slotId) ->
  pointerMove a st pos =
  (applyEdit a
     (Some (onSlotOffsetChange slotId
              (pt_x (dRel st pos) * width (canvasProps a)
               / scaleBase (canvasProps a))%num
              (pt_y (dRel st pos) * height (canvasProps a)
               / scaleBase (canvasProps a))%num)),
   mkController true (Some (TargetSlot slotId)) pos "grabbing").
Proof.
  intros Hd Ht. unfold pointerMove.
  rewrite (handleMouseMove_slot_any (canvasProps a) st pos slotId Hd Ht).
  reflexivity.
Qed.

(** On the 3000 x 3000 target binary64 scales a delta of 0.05 to 0.05, and
    one of 0 to 0. *)
Lemma scaled_delta_3000_binary64 :
  PrimFloat.div (PrimFloat.mul (lit (5 # 100)) (lit (inject_Z 3000)))
                (Binary64.min (lit (inject_Z 3000)) (lit (inject_Z 3000)))
  = lit (5 # 100) /\
  PrimFloat.div (PrimFloat.mul (lit 0) (lit (inject_Z 3000)))
                (Binary64.min (lit (inject_Z 3000)) (lit (inject_Z 3000)))
  = lit 0.
Proof. split; vm_compute; reflexivity. Qed.

(** C4, amended.  While a slot is dragged, a pointer move of
    [(dRelX, dRelY)], in fractions of the displayed canvas, replaces the pan
    offset [(dx, dy)] of the slot with the dragged id by
    [(dx + (dRelX * width) / contentSize, dy + (dRelY * height) / contentSize)],
    each operation being the one of the arithmetic in use (binary64 in the
    program), and changes nothing else of any slot; the preview width has no
    part in the result, and the pointer position is recorded.  In exact
    arithmetic the increment on a square target is [(dRelX, dRelY)] itself.
    In binary64, on the 3000 x 3000 target, a delta of exactly [(0.05, 0)] is
    passed on as exactly [(0.05, 0)], so that [dx] becomes the binary64 sum
    [dx + 0.05]. *)
Theorem drag_adds_scaled_delta :
  (forall (num : Type) (N : Number num) (a : App num) (st : Controller num)
          (pos : Point num) (slotId : string),
      isDragging st = true -> dragTarget st = Some (TargetSlot slotId) ->
      Forall2 (fun s s' =>
                 sameButOffset s s' /\
                 if String.eqb (id s) slotId
                 then imageOffsetX s' =
                        (imageOffsetX s
                         + pt_x (dRel st pos) * width (canvasProps a)
                           / contentSize (canvasProps a))%num /\
                      imageOffsetY s' =
                        (imageOffsetY s
                         + pt_y (dRel st pos) * height (canvasProps a)
                           / contentSize (canvasProps a))%num
                 else s' = s)
              (app_slots a) (app_slots (fst (pointerMove a st pos))) /\
      (forall pw : num,
          app_slots (fst (pointerMove (withPreview a pw) st pos)) =
          app_slots (fst (pointerMove a st pos))) /\
      lastMousePos (snd (pointerMove a st pos)) = pos) /\
  (forall (a : App Q) (st : Controller Q) (pos : Point Q) (slotId : string),
      isDragging st = true -> dragTarget st = Some (TargetSlot slotId) ->
      width (canvasProps a) == height (canvasProps a) ->
      0 < width (canvasProps a) ->
      Forall2 (fun s s' =>
                 String.eqb (id s) slotId = true ->
                 imageOffsetX s' == imageOffsetX s + pt_x (dRel st pos) /\
                 imageOffsetY s' == imageOffsetY s + pt_y (dRel st pos))
              (app_slots a) (app_slots (fst (pointerMove a st pos)))) /\
  (forall (a : App float) (st : Controller float) (pos : Point float)
          (slotId : string),
      isDragging st = true -> dragTarget st = Some (TargetSlot slotId) ->
      fmt_w (selectedFormat a) = 3000%Z -> fmt_h (selectedFormat a) = 3000%Z ->
      pt_x (dRel st pos) = lit (5 # 100) -> pt_y (dRel st pos) = lit 0 ->
      Forall2 (fun s s' =>
                 String.eqb (id s) slotId = true ->
                 imageOffsetX s' = PrimFloat.add (imageOffsetX s) (lit (5 # 100)) /\
                 imageOffsetY s' = PrimFloat.add (imageOffsetY s) (lit 0))
              (app_slots a) (app_slots (fst (pointerMove a st pos)))).
Proof.
  split; [|split].
  - intros num N a st pos slotId Hd Ht.
    rewrite (pointerMove_slot_any a st pos slotId Hd Ht).
    split; [|split].
    + apply handleUpdateSlotOffset_any.
    + intro pw.
      rewrite (pointerMove_slot_any (withPreview a pw) st pos slotId Hd Ht).
      reflexivity.
    + reflexivity.
  - intros a st pos slotId Hd Ht Hsq Hpos.
    rewrite (pointerMove_slot_any a st pos slotId Hd Ht).
    cbn [fst applyEdit app_slots].
    eapply Forall2_impl; [|apply handleUpdateSlotOffset_any].
    intros s s' [_ Hs] Hid. cbv beta in Hs. rewrite Hid in Hs.
    destruct Hs as [Hx Hy]. rewrite Hx, Hy.
    unfold scaleBase. cbn [add mul div Math_min Q_Number].
    split.
    + apply Qplus_comp; [reflexivity|]. apply square_delta; assumption.
    + apply Qplus_comp; [reflexivity|]. apply square_delta_y; assumption.
  - intros a st pos slotId Hd Ht Hw Hh Hx0 Hy0.
    rewrite (pointerMove_slot_any a st pos slotId Hd Ht).
    cbn [fst applyEdit app_slots].
    eapply Forall2_impl; [|apply handleUpdateSlotOffset_any].
    intros s s' [_ Hs] Hid. cbv beta in Hs. rewrite Hid in Hs.
    destruct Hs as [Hx Hy]. rewrite Hx, Hy, Hx0, Hy0.
    unfold scaleBase, canvasProps. cbn [width height]. rewrite Hw, Hh.
    cbn [add mul div Math_min float_Number].
    destruct scaled_delta_3000_binary64 as [Ex Ey].
    rewrite Ex, Ey. split; reflexivity.
Qed.

Lemma drag_adds_scaled_delta_witness :
  isDragging (Sample.grabbed (@lit float _ 0)) = true /\
  pt_x (dRel (Sample.grabbed (@lit float _ 0)) (Sample.pointer (lit (5 # 100))))
  = lit (5 # 100) /\
  Forall2 (fun s s' =>
             String.eqb (id s) "slot-0" = true ->
             imageOffsetX s' = PrimFloat.add (imageOffsetX s) (lit (5 # 100)) /\
             imageOffsetY s' = PrimFloat.add (imageOffsetY s) (lit 0))
          (app_slots (Sample.host 3000 (@lit float _ 0)))
          (app_slots (fst (pointerMove (Sample.host 3000 (@lit float _ 0))
                             (Sample.grabbed (lit 0))
                             (Sample.pointer (lit (5 # 100)))))).
Proof.
  assert (Hx : pt_x (dRel (Sample.grabbed (@lit float _ 0))
                          (Sample.pointer (lit (5 # 100)))) = lit (5 # 100))
    by (vm_compute; reflexivity).
  assert (Hy : pt_y (dRel (Sample.grabbed (@lit float _ 0))
                          (Sample.pointer (lit (5 # 100)))) = lit 0)
    by (vm_compute; reflexivity).
  split; [reflexivity|]. split; [exact Hx|].
  exact (proj2 (proj2 drag_adds_scaled_delta)
           (Sample.host 3000 (lit 0)) (Sample.grabbed (lit 0))
           (Sample.pointer (lit (5 # 100))) "slot-0"
           eq_refl eq_refl eq_refl eq_refl Hx Hy).
Defined.

(** In binary64 the pan offset does not in general grow by the pointer delta,
    also on a square target.  On the 3000 x 3000 target, a slot panned by 0.1
    and dragged by a delta of exactly 0.05 ends at the binary64 sum
    [0.1 + 0.05], which is not 0.15 and exceeds 0.1 by more than 0.05.  On a
    square target of 41 pixels the same delta, from offset 0, ends at
    [(0.05 * 41) / 41], which is not 0.05.  And on the 3000 x 3000 target a
    pointer going from 0.5 to 0.55 moves the offset from 0 to [0.55 - 0.5],
    which is not 0.05. *)
Lemma drag_increase_not_exact_binary64 :
  (pt_x (dRel (Sample.grabbed (@lit float _ 0)) (Sample.pointer (lit (5 # 100))))
   = lit (5 # 100) /\
   panOffsetX "slot-0"
     (app_slots (fst (pointerMove (Sample.host 3000 (@lit float _ (1 # 10)))
                        (Sample.grabbed (lit 0))
                        (Sample.pointer (lit (5 # 100))))))
   = Some (PrimFloat.add (lit (1 # 10)) (lit (5 # 100))) /\
   PrimFloat.eqb (PrimFloat.add (lit (1 # 10)) (lit (5 # 100))) (lit (15 # 100))
   = false /\
   PrimFloat.eqb
     (PrimFloat.sub (PrimFloat.add (lit (1 # 10)) (lit (5 # 100))) (lit (1 # 10)))
     (lit (5 # 100)) = false /\
   PrimFloat.ltb
     (lit (5 # 100))
     (PrimFloat.sub (PrimFloat.add (lit (1 # 10)) (lit (5 # 100))) (lit (1 # 10)))
   = true) /\
  (panOffsetX "slot-0"
     (app_slots (fst (pointerMove (Sample.host 41 (@lit float _ 0))
                        (Sample.grabbed (lit 0))
                        (Sample.pointer (lit (5 # 100))))))
   = Some (PrimFloat.div (PrimFloat.mul (lit (5 # 100)) (lit 41)) (lit 41)) /\
   PrimFloat.eqb
     (PrimFloat.div (PrimFloat.mul (lit (5 # 100)) (lit 41)) (lit 41))
     (lit (5 # 100)) = false) /\
  (panOffsetX "slot-0"
     (app_slots (fst (pointerMove (Sample.host 3000 (@lit float _ 0))
                        (Sample.grabbed (lit (1 # 2)))
                        (Sample.pointer (lit (55 # 100))))))
   = Some (PrimFloat.sub (lit (55 # 100)) (lit (1 # 2))) /\
   PrimFloat.eqb (PrimFloat.sub (lit (55 # 100)) (lit (1 # 2))) (lit (5 # 100))
   = false).
Proof. repeat split; vm_compute; reflexivity. Qed.

End Pan.

(* ================================================================= *)
(** ** Hit testing *)

Section HitTest.

Context {num : Type} {N : Number num} {M : MathLib num}.
Local Open Scope num_scope.

Implicit Types (p : Props num) (st : Controller num) (pos : Point num)
         (slot : PhotoSlot num).

Lemma hitsSlot_inv p pos slot :
  hitsSlot p pos slot = true ->
  (slotDist p pos slot <? slotR p slot) = true /\
  exists img, image slot = Some img.
Proof.
  unfold hitsSlot, holdsImage. intro Hhit.
  apply andb_true_iff in Hhit. destruct Hhit as [Hd Hi].
  split; [exact Hd|].
  destruct (image slot) as [img|]; [exists img; reflexivity | discriminate].
Qed.

(** The loop stops at the first slot that passes the test. *)
Lemma scanSlots_some p pos (l : list (PhotoSlot num)) slot :
  scanSlots p pos l = Some slot ->
  exists before after,
    l = (before ++ slot :: after)%list /\
    hitsSlot p pos slot = true /\
    Forall (fun s => hitsSlot p pos s = false) before.
Proof.
  induction l as [|s rest IH]; simpl; [discriminate|].
  destruct (hitsSlot p pos s) eqn:Hs; intro E.
  - injection E as <-. exists [], rest. repeat split; [exact Hs | constructor].
  - destruct (IH E) as [before [after [Hl [Hhit Hmiss]]]].
    exists (s :: before), after. rewrite Hl.
    repeat split; [exact Hhit | constructor; assumption].
Qed.

Lemma scanSlots_first p pos (before after : list (PhotoSlot num)) slot :
  Forall (fun s => hitsSlot p pos s = false) before ->
  hitsSlot p pos slot = true ->
  scanSlots p pos (before ++ slot :: after) = Some slot.
Proof.
  intros Hmiss Hhit.
  induction Hmiss as [|s rest Hs _ IH]; simpl.
  - rewrite Hhit. reflexivity.
  - rewrite Hs. exact IH.
Qed.

Lemma scanSlots_none p pos (l : list (PhotoSlot num)) :
  Forall (fun s => hitsSlot p pos s = false) l -> scanSlots p pos l = None.
Proof.
  intro Hmiss. induction Hmiss as [|s rest Hs _ IH]; simpl.
  - reflexivity.
  - rewrite Hs. exact IH.
Qed.

(** C6.  A pointer-down inside the caption's hit circle (distance to the
    anchor, in canvas pixels, below 0.15 of the content size) and inside the
    circle of some slot makes the caption the drag target: the caption test
    comes first and returns. *)
Theorem caption_wins_over_slot p st pos :
  hitsMessage p pos = true ->
  (exists slot, In slot (slots p) /\ (slotDist p pos slot <? slotR p slot) = true) ->
  handleMouseDown p st pos =
  mkController true (Some TargetMessage) pos (cursorStyle st).
Proof.
  intros Hm _. unfold handleMouseDown. rewrite Hm. reflexivity.
Qed.

(** C9, amended.  From [Idle], a slot becomes the drag target only if the
    caption is not hit, the pointer is closer to the slot's centre than its
    pixel radius and the slot holds an image, no slot before it in the array
    passing that test; and the first such slot does become the target.  If
    neither the caption nor any slot is hit, [isDragging], [dragTarget] and
    the cursor keep their values, so the controller stays [Idle]; the
    handler has recorded the pointer position in [lastMousePos]. *)
Theorem mouseDown_slot_hit_test p st pos :
  Idle st ->
  (forall slotId,
      dragTarget (handleMouseDown p st pos) = Some (TargetSlot slotId) ->
      hitsMessage p pos = false /\
      exists before slot after,
        slots p = (before ++ slot :: after)%list /\ id slot = slotId /\
        (slotDist p pos slot <? slotR p slot) = true /\
        (exists img, image slot = Some img) /\
        Forall (fun s => hitsSlot p pos s = false) before) /\
  (forall before slot after,
      hitsMessage p pos = false ->
      slots p = (before ++ slot :: after)%list ->
      Forall (fun s => hitsSlot p pos s = false) before ->
      hitsSlot p pos slot = true ->
      handleMouseDown p st pos =
      mkController true (Some (TargetSlot (id slot))) pos (cursorStyle st)) /\
  (hitsMessage p pos = false ->
   Forall (fun s => hitsSlot p pos s = false) (slots p) ->
   Idle (handleMouseDown p st pos) /\
   handleMouseDown p st pos =
   mkController (isDragging st) (dragTarget st) pos (cursorStyle st)).
Proof.
  intros [Hdrag Htarget]. split; [|split].
  - intros slotId. unfold handleMouseDown.
    destruct (hitsMessage p pos) eqn:Hm; [discriminate|].
    destruct (scanSlots p pos (slots p)) as [slot|] eqn:Hscan; simpl.
    + intro E. injection E as <-. split; [reflexivity|].
      destruct (scanSlots_some p pos _ slot Hscan) as [before [after [Hl [Hhit Hmiss]]]].
      destruct (hitsSlot_inv p pos slot Hhit) as [Hd Hi].
      exists before, slot, after. repeat split; assumption.
    + rewrite Htarget. discriminate.
  - intros before slot after Hm Hl Hmiss Hhit.
    unfold handleMouseDown.
    rewrite Hm, Hl, (scanSlots_first p pos before after slot Hmiss Hhit).
    reflexivity.
  - intros Hm Hmiss. unfold handleMouseDown.
    rewrite Hm, (scanSlots_none p pos (slots p) Hmiss).
    split; [|reflexivity]. split; assumption.
Qed.

End HitTest.

(** A pointer-down at the centre of a canvas whose caption is anchored
    there: inside the caption's circle and inside the centre slot's. *)
Lemma caption_wins_over_slot_witness :
  hitsMessage (Sample.props (mkPoint (lit (1 # 2)) (lit (1 # 2))))
              (mkPoint (lit (1 # 2)) (lit (1 # 2))) = true /\
  hitsSlot (Sample.props (mkPoint (lit (1 # 2)) (lit (1 # 2))))
           (mkPoint (lit (1 # 2)) (lit (1 # 2))) Sample.heroSlot = true /\
  dragTarget
    (handleMouseDown (Sample.props (mkPoint (lit (1 # 2)) (lit (1 # 2))))
       (@initialController float _) (mkPoint (lit (1 # 2)) (lit (1 # 2))))
  = Some TargetMessage.
Proof.
  split; [vm_compute; reflexivity|]. split; [vm_compute; reflexivity|].
  rewrite (@caption_wins_over_slot float _ _
             (Sample.props (mkPoint (lit (1 # 2)) (lit (1 # 2))))
             initialController (mkPoint (lit (1 # 2)) (lit (1 # 2)))).
  - reflexivity.
  - vm_compute. reflexivity.
  - exists Sample.heroSlot. split.
    + right. left. reflexivity.
    + vm_compute. reflexivity.
Defined.

(** C9 as the specification words it fails: a pointer-down near the corner
    of the canvas hits neither the caption nor a slot, and the controller's
    state is not what it was: [lastMousePos] is now the pointer position. *)
Lemma mouseDown_miss_changes_state :
  Idle (@initialController float _) /\
  hitsMessage (Sample.props (mkPoint (lit (1 # 2)) (lit (92 # 100))))
              (mkPoint (lit (5 # 100)) (lit (5 # 100))) = false /\
  scanSlots (Sample.props (mkPoint (lit (1 # 2)) (lit (92 # 100))))
            (mkPoint (lit (5 # 100)) (lit (5 # 100)))
            (slots (Sample.props (mkPoint (lit (1 # 2)) (lit (92 # 100))))) = None /\
  handleMouseDown (Sample.props (mkPoint (lit (1 # 2)) (lit (92 # 100))))
                  initialController (mkPoint (lit (5 # 100)) (lit (5 # 100)))
  <> initialController.
Proof.
  split; [split; reflexivity|].
  split; [vm_compute; reflexivity|]. split; [vm_compute; reflexivity|].
  intro E.
  apply (f_equal (fun c => PrimFloat.eqb (pt_x (lastMousePos c)) (lit 0))) in E.
  vm_compute in E. discriminate E.
Qed.

Lemma mouseDown_slot_hit_test_witness :
  Idle (@initialController float _) /\
  handleMouseDown (Sample.props (mkPoint (lit (1 # 2)) (lit (92 # 100))))
                  initialController (mkPoint (lit (1 # 2)) (lit (14 # 100)))
  = mkController true (Some (TargetSlot "slot-0"))
                 (mkPoint (lit (1 # 2)) (lit (14 # 100))) "default".
Proof.
  split; [split; reflexivity|].
  apply (proj1 (proj2 (@mouseDown_slot_hit_test float _ _
           (Sample.props (mkPoint (lit (1 # 2)) (lit (92 # 100))))
           initialController (mkPoint (lit (1 # 2)) (lit (14 # 100)))
           (conj eq_refl eq_refl)))
         [] Sample.ringSlot [Sample.heroSlot]).
  - vm_compute. reflexivity.
  - reflexivity.
  - constructor.
  - vm_compute. reflexivity.
Defined.

(* ================================================================= *)
(** ** The caption *)

Section StringFacts.

Local Open Scope string_scope.

Lemma append_empty_r (s : string) : s ++ "" = s.
Proof. induction s as [|c s IH]; simpl; [reflexivity | rewrite IH; reflexivity]. Qed.

Lemma append_assoc (s t u : string) : (s ++ t) ++ u = s ++ t ++ u.
Proof. induction s as [|c s IH]; simpl; [reflexivity | rewrite IH; reflexivity]. Qed.

Lemma joinStrings_app (l l' : list string) :
  joinStrings (l ++ l') = joinStrings l ++ joinStrings l'.
Proof.
  induction l as [|s l IH]; simpl; [reflexivity|].
  rewrite IH, append_assoc. reflexivity.
Qed.

Lemma lineOf_app (ws ws' : list string) : lineOf (ws ++ ws') = lineOf ws ++ lineOf ws'.
Proof. unfold lineOf. rewrite map_app. apply joinStrings_app. Qed.

Lemma lineOf_snoc (ws : list string) (w : string) :
  lineOf (ws ++ [w]) = lineOf ws ++ w ++ " ".
Proof.
  rewrite lineOf_app. unfold lineOf at 2, spaced. simpl.
  rewrite append_empty_r. reflexivity.
Qed.

Lemma lineOf_single (w : string) : lineOf [w] = w ++ " ".
Proof. exact (lineOf_snoc [] w). Qed.

(** Joining the lines of groups of words gives the line of all the words. *)
Lemma joinStrings_lineOf (groups : list (list string)) :
  joinStrings (map lineOf groups) = lineOf (List.concat groups).
Proof.
  induction groups as [|g groups IH]; simpl; [reflexivity|].
  rewrite lineOf_app, IH. reflexivity.
Qed.

Lemma lineOf_endsWithSpace (ws : list string) : ws <> [] -> endsWithSpace (lineOf ws).
Proof.
  intro Hne. destruct (exists_last Hne) as [ws' [w ->]].
  exists (lineOf ws' ++ w). rewrite lineOf_snoc, append_assoc. reflexivity.
Qed.

Lemma split_space_nonempty (s : string) : JS.split_space s <> [].
Proof.
  destruct s as [|c s]; simpl; [discriminate|].
  destruct (Ascii.eqb c " "); [discriminate|].
  destruct (JS.split_space s); discriminate.
Qed.

(** The words of [split(' ')], each followed by a space, spell the input
    followed by a space. *)
Lemma lineOf_split_space (s : string) : lineOf (JS.split_space s) = s ++ " ".
Proof.
  induction s as [|c s IH]; [reflexivity|].
  simpl JS.split_space.
  destruct (Ascii.eqb c " ") eqn:Hc.
  - apply Ascii.eqb_eq in Hc. subst c.
    change (lineOf ("" :: JS.split_space s)) with (" " ++ lineOf (JS.split_space s)).
    rewrite IH. reflexivity.
  - destruct (JS.split_space s) as [|w ws] eqn:Hs.
    + exfalso. exact (split_space_nonempty s Hs).
    + change (lineOf (String c w :: ws)) with (String c (lineOf (w :: ws))).
      rewrite IH. reflexivity.
Qed.

End StringFacts.

Section Caption.

Context {num : Type} {N : Number num}.
Variable measureText : string -> num.
Local Open Scope num_scope.

Lemma fillLines_text (lines : list string) (textX y lineHeight : num) :
  map (@ft_text num) (fillLines lines textX y lineHeight) = lines.
Proof.
  revert y. induction lines as [|l rest IH]; intro y; simpl; [reflexivity|].
  rewrite IH. reflexivity.
Qed.

(** The loop keeps whole words: with [line] the line of the words [cur]
    and [lines] the lines of the groups [prev], it ends with a line and
    lines of the same kind, over the same words followed by [words]. *)
Lemma wrapLoop_groups (maxWidth : num) (words : list string) :
  forall (n : nat) (cur : list string) (prev : list (list string)),
    (n = 0%nat -> cur = [] /\ prev = []) ->
    (n <> 0%nat -> cur <> []) ->
    Forall (fun g => g <> []) prev ->
    exists cur' prev',
      wrapLoop measureText maxWidth words n (lineOf cur) (map lineOf prev)
      = (lineOf cur', map lineOf prev') /\
      (List.concat prev' ++ cur' = List.concat prev ++ cur ++ words)%list /\
      Forall (fun g => g <> []) prev' /\
      (words <> [] \/ n <> 0%nat -> cur' <> []).
Proof.
  induction words as [|w rest IH]; intros n cur prev Hzero Hpos Hprev.
  - exists cur, prev. simpl. rewrite app_nil_r.
    repeat split; try assumption.
    intros [Hw | Hn]; [congruence | auto].
  - simpl.
    destruct ((measureText (lineOf cur ++ w ++ " ") >? maxWidth) && (0 <? n)%nat)
      eqn:Hbreak.
    + apply andb_true_iff in Hbreak. destruct Hbreak as [_ Hn].
      apply Nat.ltb_lt in Hn.
      assert (Hcur : cur <> []) by (apply Hpos; lia).
      destruct (IH (S n) [w] (prev ++ [cur])%list) as [cur' [prev' [Hrun [Hcat [Hne Hlast]]]]].
      * discriminate.
      * discriminate.
      * apply Forall_app. split; [exact Hprev | constructor; [exact Hcur | constructor]].
      * exists cur', prev'.
        rewrite map_app in Hrun. simpl in Hrun.
        rewrite lineOf_single in Hrun.
        rewrite Hrun. repeat split.
        -- rewrite Hcat, concat_app. simpl. rewrite app_nil_r, <- app_assoc.
           reflexivity.
        -- exact Hne.
        -- intros _. apply Hlast. right. discriminate.
    + destruct (IH (S n) (cur ++ [w])%list prev) as [cur' [prev' [Hrun [Hcat [Hne Hlast]]]]].
      * discriminate.
      * intros _ E. destruct cur; discriminate E.
      * exact Hprev.
      * exists cur', prev'.
        rewrite lineOf_snoc in Hrun. rewrite Hrun. repeat split.
        -- rewrite Hcat, <- app_assoc. reflexivity.
        -- exact Hne.
        -- intros _. apply Hlast. right. discriminate.
Qed.

(** The lines of the multi-line path are the lines of consecutive,
    non-empty groups of the words. *)
Lemma wrapLines_groups (maxWidth : num) (words : list string) :
  words <> [] ->
  exists groups,
    wrapLines measureText maxWidth words = map lineOf groups /\
    List.concat groups = words /\
    Forall (fun g => g <> []) groups.
Proof.
  intro Hne.
  destruct (wrapLoop_groups maxWidth words 0 [] [])
    as [cur' [prev' [Hrun [Hcat [Hprev Hlast]]]]].
  - intros _. split; reflexivity.
  - intro H. congruence.
  - constructor.
  - exists (prev' ++ [cur'])%list.
    change (lineOf []) with "" in Hrun.
    change (map lineOf []) with (@nil string) in Hrun.
    unfold wrapLines. rewrite Hrun. repeat split.
    + rewrite map_app. reflexivity.
    + rewrite concat_app. simpl. rewrite app_nil_r. exact Hcat.
    + apply Forall_app. split; [exact Hprev|].
      constructor; [apply Hlast; left; exact Hne | constructor].
Qed.

End Caption.

Section CaptionProperties.

Context {num : Type} {N : Number num}.
Variable measureText : string -> num.
Local Open Scope num_scope.

(** What [drawMessage] does with a caption that is not empty. *)
Lemma drawMessage_nonempty (p : Props num) (s : string) :
  message p = Some s -> s <> "" ->
  drawMessage measureText p =
  if measureText s >? width p * lit (8 # 10) then
    fillLines (wrapLines measureText (width p * lit (8 # 10)) (JS.split_space s))
      (pt_x (messagePos p) * width p)
      (pt_y (messagePos p) * height p
       - ((ofNat (List.length
                    (wrapLines measureText (width p * lit (8 # 10)) (JS.split_space s)))
           - lit 1) * (scaleBase p * lit (35 # 1000) * lit (13 # 10))) / lit 2)
      (scaleBase p * lit (35 # 1000) * lit (13 # 10))
  else
    [mkFillText s (pt_x (messagePos p) * width p) (pt_y (messagePos p) * height p)].
Proof.
  intros Hm Hne. unfold drawMessage. rewrite Hm.
  destruct s as [|c s']; [congruence | reflexivity].
Qed.

(** C8, amended.  A caption that is not empty and whose measured width
    does not exceed 80% of the canvas width is drawn as exactly one line,
    whose text is the caption unchanged, at the anchor; the empty caption
    draws no line. *)
Theorem fitting_caption_single_line (p : Props num) :
  (forall s : string,
      message p = Some s -> s <> "" ->
      (measureText s >? width p * lit (8 # 10)) = false ->
      drawMessage measureText p =
      [mkFillText s (pt_x (messagePos p) * width p) (pt_y (messagePos p) * height p)]) /\
  (message p = Some "" -> drawMessage measureText p = []).
Proof.
  split.
  - intros s Hm Hne Hfit.
    rewrite (drawMessage_nonempty p s Hm Hne), Hfit. reflexivity.
  - intro Hm. unfold drawMessage. rewrite Hm. reflexivity.
Qed.

(** C10.  On the multi-line path the lines drawn are the lines of
    consecutive non-empty groups of the caption's space-split words, each
    word followed by one space: the groups put end to end are the word
    sequence, so the lines put end to end spell every word once, in order
    (the caption followed by a space), and every line ends with a space. *)
Theorem wrap_partitions_words (p : Props num) (s : string) :
  message p = Some s -> s <> "" ->
  (measureText s >? width p * lit (8 # 10)) = true ->
  exists groups : list (list string),
    map (@ft_text num) (drawMessage measureText p) = map lineOf groups /\
    List.concat groups = JS.split_space s /\
    Forall (fun g => g <> []) groups /\
    joinStrings (map (@ft_text num) (drawMessage measureText p))
    = lineOf (JS.split_space s) /\
    joinStrings (map (@ft_text num) (drawMessage measureText p)) = s ++ " " /\
    Forall endsWithSpace (map (@ft_text num) (drawMessage measureText p)).
Proof.
  intros Hm Hne Hwrap.
  rewrite (drawMessage_nonempty p s Hm Hne), Hwrap, fillLines_text.
  destruct (wrapLines_groups measureText (width p * lit (8 # 10))
              (JS.split_space s) (split_space_nonempty s))
    as [groups [Hlines [Hcat Hgroups]]].
  exists groups. rewrite Hlines.
  assert (Hjoin : joinStrings (map lineOf groups) = lineOf (JS.split_space s))
    by (rewrite joinStrings_lineOf, Hcat; reflexivity).
  repeat split; try assumption.
  - rewrite Hjoin. apply lineOf_split_space.
  - apply Forall_map. eapply Forall_impl; [|exact Hgroups].
    intros g Hg. apply lineOf_endsWithSpace. exact Hg.
Qed.

End CaptionProperties.

(** C8 as the specification words it fails at the empty caption: its
    measured width is within the maximum, and no line is drawn. *)
Lemma empty_caption_draws_no_line :
  message (Sample.canvas "") = Some "" /\
  (Sample.monospace "" >? width (Sample.canvas "") * lit (8 # 10))%num = false /\
  map (@ft_text Q) (drawMessage Sample.monospace (Sample.canvas "")) = [] /\
  map (@ft_text Q) (drawMessage Sample.monospace (Sample.canvas "")) <> [""].
Proof.
  split; [reflexivity|]. split; [reflexivity|]. split; [reflexivity|].
  discriminate.
Qed.

Lemma fitting_caption_single_line_witness :
  (Sample.monospace "Happy 1st Birthday!"
   >? width (Sample.canvas "Happy 1st Birthday!") * lit (8 # 10))%num = false /\
  map (@ft_text Q) (drawMessage Sample.monospace (Sample.canvas "Happy 1st Birthday!"))
  = ["Happy 1st Birthday!"].
Proof.
  split; [reflexivity|].
  rewrite (proj1 (@fitting_caption_single_line Q _ Sample.monospace
                    (Sample.canvas "Happy 1st Birthday!"))
             "Happy 1st Birthday!" eq_refl ltac:(discriminate) eq_refl).
  reflexivity.
Defined.

Lemma wrap_partitions_words_witness :
  (Sample.monospace "Happy 1st Birthday to our little prince, the sunshine of our days!"
   >? width (Sample.canvas "Happy 1st Birthday to our little prince, the sunshine of our days!")
      * lit (8 # 10))%num = true /\
  joinStrings
    (map (@ft_text Q)
       (drawMessage Sample.monospace
          (Sample.canvas "Happy 1st Birthday to our little prince, the sunshine of our days!")))
  = "Happy 1st Birthday to our little prince, the sunshine of our days! ".
Proof.
  split; [reflexivity|].
  destruct (@wrap_partitions_words Q _ Sample.monospace
              (Sample.canvas "Happy 1st Birthday to our little prince, the sunshine of our days!")
              "Happy 1st Birthday to our little prince, the sunshine of our days!"
              eq_refl ltac:(discriminate) eq_refl)
    as [groups [_ [_ [_ [_ [Hjoin _]]]]]].
  exact Hjoin.
Defined.

(* ================================================================= *)
(** ** Decimal numerals *)

Section Decimal.

Local Open Scope string_scope.
Import Decimal.

Lemma string_of_uint_allDigits (d : uint) :
  allDigits (NilEmpty.string_of_uint d) = true.
Proof.
  induction d; simpl; try reflexivity; exact IHd.
Qed.

Lemma showN_allDigits (n : N) : allDigits (JS.showN n) = true.
Proof. apply string_of_uint_allDigits. Qed.

Lemma string_of_uint_inj (d d' : uint) :
  NilEmpty.string_of_uint d = NilEmpty.string_of_uint d' -> d = d'.
Proof.
  intro E. apply (f_equal NilEmpty.uint_of_string) in E.
  rewrite !NilEmpty.usu in E. injection E as E. exact E.
Qed.

Lemma showN_inj (n n' : N) : JS.showN n = JS.showN n' -> n = n'.
Proof.
  intro E. apply DecimalN.Unsigned.to_uint_inj, string_of_uint_inj, E.
Qed.

(** Reading the digits of a numeral accumulates its value. *)
Lemma parseDigits_uint (d : uint) (acc : Z) :
  JS.parseDigits 10 (NilEmpty.string_of_uint d) (Some acc) = Some (uintZ d acc).
Proof.
  revert acc. induction d; intro acc; simpl; try reflexivity;
    rewrite IHd; try reflexivity.
  rewrite Z.add_0_r. reflexivity.
Qed.

Lemma parseDigits_uint_start (d : uint) :
  d <> Nil ->
  JS.parseDigits 10 (NilEmpty.string_of_uint d) None = Some (uintZ d 0).
Proof.
  intro Hne. destruct d; [congruence|..]; simpl;
    rewrite parseDigits_uint; reflexivity.
Qed.

Lemma uintZ_acc (d : uint) (acc : positive) :
  uintZ d (Zpos acc) = Zpos (Pos.of_uint_acc d acc).
Proof.
  revert acc. induction d; intro acc; cbn [uintZ Pos.of_uint_acc];
    try reflexivity; rewrite <- IHd; f_equal; lia.
Qed.

Lemma uintZ_of_uint (d : uint) : uintZ d 0 = Z.of_N (N.of_uint d).
Proof.
  induction d; simpl; try reflexivity; try exact IHd;
    apply (uintZ_acc d).
Qed.

Lemma to_uint_not_Nil (n : N) : N.to_uint n <> Nil.
Proof.
  intro E. pose proof (DecimalN.Unsigned.of_to n) as H. rewrite E in H.
  simpl in H. subst n. discriminate E.
Qed.

End Decimal.

(* ================================================================= *)
(** ** Badge colours *)

Section BadgeColor.

Local Open Scope string_scope.
Import Decimal.

Lemma includes_digits_Day (d : uint) :
  JS.includes (NilEmpty.string_of_uint d) "Day" = false.
Proof.
  induction d; simpl; try reflexivity; exact IHd.
Qed.

Lemma includes_Month_N (d : uint) :
  JS.includes ("Month " ++ NilEmpty.string_of_uint d) "Day" = false.
Proof.
  simpl. apply includes_digits_Day.
Qed.

Lemma replace_Month_N (s : string) : JS.replace ("Month " ++ s) "Month " "" = s.
Proof. destruct s; reflexivity. Qed.

Lemma toNumber_safe (z : Z) :
  (Z.abs z < 2 ^ 53)%Z -> JS.toNumber z = JS.Finite z.
Proof.
  intro Hz. unfold JS.toNumber.
  destruct (Z.ltb_spec (Z.abs z) (2 ^ 53)) as [_ | Hge]; [reflexivity | lia].
Qed.

(** [parseInt] reads a decimal numeral as its value. *)
Lemma parseInt_uint (d : uint) :
  d <> Nil -> (uintZ d 0 < 2 ^ 53)%Z -> (0 <= uintZ d 0)%Z ->
  JS.parseInt (NilEmpty.string_of_uint d) = JS.Finite (uintZ d 0).
Proof.
  intros Hne Hlt Hge.
  assert (Hparse : forall s, s = NilEmpty.string_of_uint d ->
             JS.parseDigits 10 s None = Some (uintZ d 0))
    by (intros s ->; apply parseDigits_uint_start, Hne).
  assert (Hnum : JS.toNumber (1 * uintZ d 0) = JS.Finite (uintZ d 0))
    by (rewrite Z.mul_1_l; apply toNumber_safe; lia).
  destruct d as [|d|d|d|d|d|d|d|d|d|d]; [congruence|..];
    try (unfold JS.parseInt; cbn [NilEmpty.string_of_uint JS.trimStart];
         match goal with
         | |- context [JS.isWhiteSpace ?c] =>
             change (JS.isWhiteSpace c) with false
         end; cbv iota;
         match goal with
         | |- context [JS.parseDigits 10 ?s None] => rewrite (Hparse s eq_refl)
         end; rewrite Hnum; reflexivity).
  destruct d as [|d|d|d|d|d|d|d|d|d|d]; [reflexivity|..];
    unfold JS.parseInt; cbn [NilEmpty.string_of_uint JS.trimStart];
    change (JS.isWhiteSpace "0") with false; cbv iota;
    match goal with
    | |- context [JS.parseDigits 10 ?s None] => rewrite (Hparse s eq_refl)
    end; rewrite Hnum; reflexivity.
Qed.

Lemma parseInt_showN (n : N) :
  (n < 2 ^ 53)%N -> JS.parseInt (JS.showN n) = JS.Finite (Z.of_N n).
Proof.
  intro Hn. unfold JS.showN.
  assert (Hv : uintZ (N.to_uint n) 0 = Z.of_N n)
    by (rewrite uintZ_of_uint, DecimalN.Unsigned.of_to; reflexivity).
  rewrite parseInt_uint, Hv; [reflexivity | apply to_uint_not_Nil | | ];
    rewrite Hv; lia.
Qed.

Lemma index_remLength (n : N) :
  Badge.index (Badge.remLength (JS.Finite (Z.of_N n)))
  = nth_error Badge.colors (N.to_nat (n mod 4)).
Proof.
  unfold Badge.index, Badge.remLength.
  change (Z.of_nat (List.length Badge.colors)) with 4%Z.
  rewrite Z.rem_mod_nonneg by lia.
  change 4%Z with (Z.of_N 4). rewrite <- N2Z.inj_mod.
  destruct (Z.ltb_spec (Z.of_N (n mod 4)) 0) as [Hneg | _].
  - exfalso. pose proof (N2Z.is_nonneg (n mod 4)) as Hpos.
    exact (Zlt_not_le _ _ Hneg Hpos).
  - rewrite <- Z_N_nat, N2Z.id. reflexivity.
Qed.

(** C7.  The badge of a slot is a function of its label alone.  A slot that
    is not the centre one and whose label contains "Day" gets the badge
    "Day 1" in pink (#fbcfe8).  A label "Month N" (N in decimal, within the
    integers a number holds exactly) gets the colour at index [N mod 4] of
    the palette blue, green, yellow, purple; months 1, 5 and 9 are all
    green. *)
Theorem badgeColor_of_label :
  (forall (num : Type) (s1 s2 : PhotoSlot num),
      label s1 = label s2 -> isCenter s1 = isCenter s2 ->
      Badge.badge s1 = Badge.badge s2) /\
  (forall (num : Type) (slot : PhotoSlot num),
      isCenter slot = false -> JS.includes (label slot) "Day" = true ->
      Badge.badge slot = Some ("Day 1", Some "#fbcfe8")) /\
  (forall n : N,
      (n < 2 ^ 53)%N ->
      Badge.badgeColor ("Month " ++ JS.showN n)
      = nth_error ["#bae6fd"; "#bbf7d0"; "#fde68a"; "#ddd6fe"] (N.to_nat (n mod 4))) /\
  Badge.badgeColor "Month 1" = Some "#bbf7d0" /\
  Badge.badgeColor "Month 5" = Some "#bbf7d0" /\
  Badge.badgeColor "Month 9" = Some "#bbf7d0".
Proof.
  split; [|split; [|split; [|repeat split]]].
  - intros num s1 s2 Hl Hc. unfold Badge.badge. rewrite Hl, Hc. reflexivity.
  - intros num slot Hc Hd. unfold Badge.badge, Badge.badgeText, Badge.badgeColor.
    rewrite Hc, Hd. reflexivity.
  - intros n Hn. unfold Badge.badgeColor, JS.showN.
    rewrite includes_Month_N, replace_Month_N.
    fold (JS.showN n). rewrite (parseInt_showN n Hn).
    apply index_remLength.
Qed.

Lemma badgeColor_of_label_witness :
  (11 < 2 ^ 53)%N /\
  Badge.badgeColor "Month 11" = Some "#ddd6fe".
Proof.
  split; [reflexivity|].
  exact (proj1 (proj2 (proj2 badgeColor_of_label)) 11%N eq_refl).
Defined.

End BadgeColor.

(* ================================================================= *)
(** ** Export *)

Section ExportProperties.

Local Open Scope string_scope.
Import ExportAdapter.

Lemma append_inv_head (s a b : string) : s ++ a = s ++ b -> a = b.
Proof.
  induction s as [|c s IH]; simpl; intro E; [exact E|].
  injection E as E. exact (IH E).
Qed.

(** Two texts that start with digits and then a character that is no
    digit agree on the digits and on the rest. *)
Lemma digits_then_sep (sep : ascii) (s1 s2 t1 t2 : string) :
  isDigit sep = false ->
  allDigits s1 = true -> allDigits s2 = true ->
  s1 ++ String sep t1 = s2 ++ String sep t2 ->
  s1 = s2 /\ t1 = t2.
Proof.
  intro Hsep. revert s2.
  induction s1 as [|c1 s1 IH]; intros [|c2 s2] H1 H2 E; simpl in *.
  - injection E as E. split; [reflexivity | exact E].
  - injection E as Ec _. subst c2.
    apply andb_true_iff in H2. destruct H2 as [H2 _]. congruence.
  - injection E as Ec _. subst c1.
    apply andb_true_iff in H1. destruct H1 as [H1 _]. congruence.
  - injection E as Ec E. subst c2.
    apply andb_true_iff in H1. destruct H1 as [_ H1].
    apply andb_true_iff in H2. destruct H2 as [_ H2].
    destruct (IH s2 H1 H2 E) as [Hs Ht]. subst. split; reflexivity.
Qed.

Lemma showZ_nonneg (z : Z) : (0 <= z)%Z -> showZ z = JS.showN (Z.to_N z).
Proof.
  intro Hz. unfold showZ.
  destruct (Z.ltb_spec z 0) as [Hneg | _]; [lia | reflexivity].
Qed.

(** The file name tells the two dimensions. *)
Lemma fileName_inj (w h w' h' : Z) :
  (0 <= w)%Z -> (0 <= h)%Z -> (0 <= w')%Z -> (0 <= h')%Z ->
  fileName w h = fileName w' h' -> w = w' /\ h = h'.
Proof.
  intros Hw Hh Hw' Hh' E. unfold fileName in E.
  apply append_inv_head in E.
  rewrite !showZ_nonneg in E by assumption.
  change ("x" ++ ?a) with (String "x" a) in E.
  apply digits_then_sep in E;
    [| reflexivity | apply showN_allDigits | apply showN_allDigits].
  destruct E as [Ew Eh].
  change ".png" with (String "." "png") in Eh.
  apply digits_then_sep in Eh;
    [| reflexivity | apply showN_allDigits | apply showN_allDigits].
  destruct Eh as [Eh _].
  apply showN_inj in Ew. apply showN_inj in Eh.
  split; [rewrite <- (Z2N.id w), <- (Z2N.id w') by assumption
         | rewrite <- (Z2N.id h), <- (Z2N.id h') by assumption];
    congruence.
Qed.

(** C5 as the specification words it fails: exporting the square preset
    with the component's canvas mounted as element 1 creates no canvas and
    runs no renderer; the surface serialised is element 1, which was in the
    document before the call and is the one [draw] paints for the preview. *)
Lemma download_reuses_mounted_canvas :
  snd (download ["div"; "canvas"] (Some 1%nat) 3000 3000)
  = [ Created "a" 2%nat;
      SetDownload 2%nat "first-year-collage-3000x3000.png";
      SetHrefToDataURL 2%nat 1%nat "image/png" 1;
      Click 2%nat ] /\
  nth_error ["div"; "canvas"] 1 = Some "canvas" /\
  draw (Some 1%nat) = [Paint 1%nat] /\
  (forall el, ~ In (Created "canvas" el)
                   (snd (download ["div"; "canvas"] (Some 1%nat) 3000 3000))) /\
  (forall c, ~ In (Paint c)
                  (snd (download ["div"; "canvas"] (Some 1%nat) 3000 3000))).
Proof.
  split; [reflexivity|]. split; [reflexivity|]. split; [reflexivity|].
  split; intros e Hin; simpl in Hin;
    repeat (destruct Hin as [Hin | Hin]; [discriminate Hin|]); exact Hin.
Qed.

(** C5, amended.  For every preset (width, height) the export creates one
    link element, names the download
    "first-year-collage-<width>x<height>.png", sets its address to the PNG
    serialisation of the component's one mounted canvas and clicks it; it
    creates no other surface and does not run the renderer.  That canvas is
    the one [draw] paints, and its backing store has the preset's pixel
    dimensions, whatever the preview size.  Without a mounted canvas nothing
    happens.  Different dimensions give different file names. *)
Theorem download_exports_mounted_canvas :
  (forall (doc : Document) (canvas : ElementId) (w h : Z),
      download doc (Some canvas) w h =
      ((doc ++ ["a"])%list,
       [ Created "a" (List.length doc);
         SetDownload (List.length doc)
           ("first-year-collage-" ++ showZ w ++ "x" ++ showZ h ++ ".png");
         SetHrefToDataURL (List.length doc) canvas "image/png" 1;
         Click (List.length doc) ]) /\
      draw (Some canvas) = [Paint canvas]) /\
  (forall (doc : Document) (w h : Z), download doc None w h = (doc, [])) /\
  (forall (p : Props Q),
      attr_width (render p) = width p /\ attr_height (render p) = height p /\
      box_width (render p) = displaySize p) /\
  (forall w h w' h' : Z,
      (0 <= w)%Z -> (0 <= h)%Z -> (0 <= w')%Z -> (0 <= h')%Z ->
      fileName w h = fileName w' h' -> w = w' /\ h = h').
Proof.
  split; [|split; [|split]].
  - intros doc canvas w h. split; reflexivity.
  - intros doc w h. reflexivity.
  - intro p. repeat split.
  - exact fileName_inj.
Qed.

(** The landscape preset and its transpose get different file names. *)
Lemma download_exports_mounted_canvas_witness :
  (0 <= 3200)%Z /\ (0 <= 1800)%Z /\
  fileName 3200 1800 = "first-year-collage-3200x1800.png" /\
  fileName 3200 1800 <> fileName 1800 3200.
Proof.
  split; [discriminate|]. split; [discriminate|]. split; [reflexivity|].
  intro E.
  destruct (proj2 (proj2 (proj2 download_exports_mounted_canvas))
              3200%Z 1800%Z 1800%Z 3200%Z
              ltac:(discriminate) ltac:(discriminate)
              ltac:(discriminate) ltac:(discriminate) E) as [Ew _].
  discriminate Ew.
Defined.

End ExportProperties.

(* ================================================================= *)
(** ** The same scenarios in binary64 *)

Section Binary64Samples.

(** In binary64 the round trip is exact at most points and off by a
    rounding error at some: on the 3200 x 1800 target the unit coordinate
    0.188 comes back changed, by less than 1e-15. *)
Lemma roundtrip_binary64_sample :
  PrimFloat.eqb
    (pt_x (pixelToUnit (mkProps [] (lit 3200) (lit 1800) (lit 600) None
                                (mkPoint (lit 0) (lit 0)))
             (unitToPixel (mkProps [] (lit 3200) (lit 1800) (lit 600) None
                                   (mkPoint (lit 0) (lit 0)))
                (mkPoint (lit (14 # 100)) (lit (14 # 100))))))
    (lit (14 # 100)) = true /\
  PrimFloat.eqb
    (pt_x (pixelToUnit (mkProps [] (lit 3200) (lit 1800) (lit 600) None
                                (mkPoint (lit 0) (lit 0)))
             (unitToPixel (mkProps [] (lit 3200) (lit 1800) (lit 600) None
                                   (mkPoint (lit 0) (lit 0)))
                (mkPoint (lit (188 # 1000)) (lit (188 # 1000))))))
    (lit (188 # 1000)) = false /\
  PrimFloat.ltb
    (PrimFloat.abs
       (PrimFloat.sub
          (pt_x (pixelToUnit (mkProps [] (lit 3200) (lit 1800) (lit 600) None
                                      (mkPoint (lit 0) (lit 0)))
                   (unitToPixel (mkProps [] (lit 3200) (lit 1800) (lit 600) None
                                         (mkPoint (lit 0) (lit 0)))
                      (mkPoint (lit (188 # 1000)) (lit (188 # 1000))))))
          (lit (188 # 1000))))
    (lit (1 # 1000000000000000)) = true.
Proof. repeat split; vm_compute; reflexivity. Qed.

(** The drag of the specification's scenario: on the 3000 x 3000 target a
    pointer delta of 0.05 is passed to the host as 0.05 exactly. *)
Lemma drag_binary64_sample :
  handleMouseMove (Sample.props (mkPoint (lit (1 # 2)) (lit (92 # 100))))
    (mkController true (Some (TargetSlot "slot-0"))
                  (mkPoint (lit 0) (lit (14 # 100))) "grab")
    (mkPoint (lit (5 # 100)) (lit (14 # 100)))
  = (mkController true (Some (TargetSlot "slot-0"))
                  (mkPoint (lit (5 # 100)) (lit (14 # 100))) "grabbing",
     Some (onSlotOffsetChange "slot-0" (@lit float _ (5 # 100)) (lit 0))).
Proof. vm_compute. reflexivity. Qed.

End Binary64Samples.

(* ================================================================= *)
(** * Further properties *)

(* ================================================================= *)
(** ** Pointer moves *)

Section Moves.

Context {num : Type} {N : Number num}.

Implicit Types (a : App num) (st : Controller num) (pos : Point num).

Lemma handleMouseMove_not_dragging (p : Props num) st pos :
  isDragging st = false \/ dragTarget st = None ->
  handleMouseMove p st pos =
  (mkController (isDragging st) (dragTarget st) (lastMousePos st)
                (if isDragging st then "grabbing" else "grab"), None).
Proof.
  intros [Hd | Ht]; unfold handleMouseMove.
  - rewrite Hd. reflexivity.
  - rewrite Ht. destruct (isDragging st); reflexivity.
Qed.

Lemma pointerMoves_not_dragging a st (path : list (Point num)) :
  isDragging st = false \/ dragTarget st = None ->
  fst (pointerMoves a st path) = a /\
  isDragging (snd (pointerMoves a st path)) = isDragging st /\
  dragTarget (snd (pointerMoves a st path)) = dragTarget st /\
  lastMousePos (snd (pointerMoves a st path)) = lastMousePos st.
Proof.
  revert st. induction path as [|pos rest IH]; intros st Hidle.
  - repeat split.
  - simpl. unfold pointerMove.
    rewrite (handleMouseMove_not_dragging (canvasProps a) st pos Hidle).
    cbn [applyEdit].
    apply (IH (mkController (isDragging st) (dragTarget st) (lastMousePos st)
                 (if isDragging st then "grabbing" else "grab"))).
    exact Hidle.
Qed.

(** X1.  While nothing is dragged, pointer moves, however many, change
    neither the host (slots, caption, anchor) nor the drag state nor the
    recorded pointer position: only the cursor style is set. *)
Theorem moves_without_drag_change_nothing a st (path : list (Point num)) :
  isDragging st = false \/ dragTarget st = None ->
  fst (pointerMoves a st path) = a /\
  isDragging (snd (pointerMoves a st path)) = isDragging st /\
  dragTarget (snd (pointerMoves a st path)) = dragTarget st /\
  lastMousePos (snd (pointerMoves a st path)) = lastMousePos st.
Proof.
  intro Hidle. apply pointerMoves_not_dragging. exact Hidle.
Qed.

(** X2.  Releasing the pointer (or leaving the canvas) ends any drag: the
    controller is [Idle] with the default cursor, and the moves that follow
    edit nothing. *)
Theorem mouseUp_ends_drag a st (path : list (Point num)) :
  Idle (handleMouseUp st) /\
  cursorStyle (handleMouseUp st) = "default" /\
  fst (pointerMoves a (handleMouseUp st) path) = a /\
  Idle (snd (pointerMoves a (handleMouseUp st) path)).
Proof.
  destruct (pointerMoves_not_dragging a (handleMouseUp st) path)
    as [Ha [Hd [Ht _]]]; [left; reflexivity|].
  repeat split; try assumption.
Qed.

End Moves.

Lemma moves_without_drag_change_nothing_witness :
  isDragging (@initialController Q _) = false /\
  fst (pointerMoves Sample.app initialController
         [mkPoint (1 # 2) (14 # 100); mkPoint (55 # 100) (2 # 10)])
  = Sample.app.
Proof.
  split; [reflexivity|].
  exact (proj1 (@moves_without_drag_change_nothing Q _ Sample.app initialController
                  [mkPoint (1 # 2) (14 # 100); mkPoint (55 # 100) (2 # 10)]
                  (or_introl eq_refl))).
Defined.

Section DragPaths.

Local Open Scope Q_scope.

Lemma last_cons {A : Type} (x d : A) (l : list A) : last (x :: l) d = last l x.
Proof.
  revert x d. induction l as [|y l IH]; intros x d; [reflexivity|].
  change (last (x :: y :: l) d) with (last (y :: l) d).
  rewrite (IH y d), (IH y x). reflexivity.
Qed.

Lemma pointerMove_message (a : App Q) (st : Controller Q) (pos : Point Q) :
  isDragging st = true -> dragTarget st = Some TargetMessage ->
  pointerMove a st pos =
  (mkApp (app_slots a) (app_message a)
         (mkPoint (pt_x (app_messagePos a) + pt_x (dRel st pos))
                  (pt_y (app_messagePos a) + pt_y (dRel st pos)))
         (selectedFormat a) (previewWidth a),
   mkController true (Some TargetMessage) pos "grabbing").
Proof.
  intros Hd Ht. unfold pointerMove, handleMouseMove. rewrite Hd, Ht. reflexivity.
Qed.

(** X3.  Dragging the caption along any path of pointer positions moves
    its anchor by the displacement from where the drag started to the last
    position, whatever the positions in between; slots, text and format are
    untouched. *)
Theorem caption_drag_follows_pointer (a : App Q) (st : Controller Q)
        (path : list (Point Q)) :
  isDragging st = true -> dragTarget st = Some TargetMessage ->
  Qpoint_eq (app_messagePos (fst (pointerMoves a st path)))
            (mkPoint (pt_x (app_messagePos a)
                      + (pt_x (last path (lastMousePos st)) - pt_x (lastMousePos st)))
                     (pt_y (app_messagePos a)
                      + (pt_y (last path (lastMousePos st)) - pt_y (lastMousePos st)))) /\
  app_slots (fst (pointerMoves a st path)) = app_slots a /\
  app_message (fst (pointerMoves a st path)) = app_message a /\
  selectedFormat (fst (pointerMoves a st path)) = selectedFormat a /\
  lastMousePos (snd (pointerMoves a st path)) = last path (lastMousePos st).
Proof.
  revert a st. induction path as [|pos rest IH]; intros a st Hd Ht.
  - simpl. repeat split; simpl; ring.
  - cbn [pointerMoves]. rewrite (pointerMove_message a st pos Hd Ht).
    rewrite last_cons.
    destruct (IH (mkApp (app_slots a) (app_message a)
                        (mkPoint (pt_x (app_messagePos a) + pt_x (dRel st pos))
                                 (pt_y (app_messagePos a) + pt_y (dRel st pos)))
                        (selectedFormat a) (previewWidth a))
                 (mkController true (Some TargetMessage) pos "grabbing")
                 eq_refl eq_refl)
      as [[Hx Hy] [Hs [Hm [Hf Hl]]]].
    cbn [lastMousePos app_messagePos app_slots app_message selectedFormat
         pt_x pt_y dRel] in *.
    repeat split; try assumption.
    + cbn [pt_x]. rewrite Hx. simpl. ring.
    + cbn [pt_y]. rewrite Hy. simpl. ring.
Qed.

Lemma caption_drag_follows_pointer_witness :
  isDragging (mkController true (Some TargetMessage) (mkPoint (1 # 2) (92 # 100)) "grab") = true /\
  Qpoint_eq
    (app_messagePos
       (fst (pointerMoves Sample.app
               (mkController true (Some TargetMessage) (mkPoint (1 # 2) (92 # 100)) "grab")
               [mkPoint (3 # 10) (1 # 10); mkPoint (6 # 10) (9 # 10)])))
    (mkPoint (6 # 10) (9 # 10)).
Proof.
  split; [reflexivity|].
  destruct (proj1 (caption_drag_follows_pointer Sample.app
              (mkController true (Some TargetMessage) (mkPoint (1 # 2) (92 # 100)) "grab")
              [mkPoint (3 # 10) (1 # 10); mkPoint (6 # 10) (9 # 10)]
              eq_refl eq_refl)) as [Hx Hy].
  split.
  - rewrite Hx. vm_compute. reflexivity.
  - rewrite Hy. vm_compute. reflexivity.
Defined.

End DragPaths.

Section SlotDragPaths.

Local Open Scope Q_scope.

Lemma Forall2_same {A : Type} (R : A -> A -> Prop) (l : list A) :
  (forall x, R x x) -> Forall2 R l l.
Proof. intro HR. induction l; constructor; auto. Qed.

Lemma Forall2_compose {A : Type} (R1 R2 R3 : A -> A -> Prop) (l1 l2 l3 : list A) :
  (forall x y z, R1 x y -> R2 y z -> R3 x z) ->
  Forall2 R1 l1 l2 -> Forall2 R2 l2 l3 -> Forall2 R3 l1 l3.
Proof.
  intros HR H12. revert l3.
  induction H12 as [|x y l1 l2 Hxy _ IH]; intros l3 H23; inversion H23; subst.
  - constructor.
  - constructor; [eapply HR; eassumption | apply IH; assumption].
Qed.

Lemma sameButOffset_refl {num : Type} (s : PhotoSlot num) : sameButOffset s s.
Proof. unfold sameButOffset. repeat split. Qed.

Lemma sameButOffset_trans {num : Type} (s1 s2 s3 : PhotoSlot num) :
  sameButOffset s1 s2 -> sameButOffset s2 s3 -> sameButOffset s1 s3.
Proof.
  unfold sameButOffset.
  intros [A1 [A2 [A3 [A4 [A5 [A6 A7]]]]]] [B1 [B2 [B3 [B4 [B5 [B6 B7]]]]]].
  repeat split; congruence.
Qed.

Lemma pointerMove_slot (a : App Q) (st : Controller Q) (pos : Point Q)
      (slotId : string) :
  isDragging st = true -> dragTarget st = Some (TargetSlot slotId) ->
  pointerMove a st pos =
  (mkApp (handleUpdateSlotOffset slotId
            (pt_x (dRel st pos) * width (canvasProps a) / scaleBase (canvasProps a))
            (pt_y (dRel st pos) * height (canvasProps a) / scaleBase (canvasProps a))
            (app_slots a))
         (app_message a) (app_messagePos a) (selectedFormat a) (previewWidth a),
   mkController true (Some (TargetSlot slotId)) pos "grabbing").
Proof.
  intros Hd Ht. unfold pointerMove.
  rewrite (handleMouseMove_slot (canvasProps a) st pos slotId Hd Ht).
  reflexivity.
Qed.

(** X4.  Dragging a slot along any path of pointer positions adds to the
    pan offset of the slot with the dragged id the displacement from where
    the drag started to the last position, scaled by the canvas size over
    the content size, whatever the positions in between; every other slot
    and field, and the caption, are untouched. *)
Theorem slot_drag_follows_pointer (a : App Q) (st : Controller Q)
        (path : list (Point Q)) (slotId : string) :
  isDragging st = true -> dragTarget st = Some (TargetSlot slotId) ->
  Forall2 (fun s s' =>
             sameButOffset s s' /\
             if String.eqb (id s) slotId
             then imageOffsetX s' ==
                    imageOffsetX s
                    + (pt_x (last path (lastMousePos st)) - pt_x (lastMousePos st))
                      * width (canvasProps a) / contentSize (canvasProps a) /\
                  imageOffsetY s' ==
                    imageOffsetY s
                    + (pt_y (last path (lastMousePos st)) - pt_y (lastMousePos st))
                      * height (canvasProps a) / contentSize (canvasProps a)
             else s' = s)
          (app_slots a) (app_slots (fst (pointerMoves a st path))) /\
  app_messagePos (fst (pointerMoves a st path)) = app_messagePos a /\
  app_message (fst (pointerMoves a st path)) = app_message a.
Proof.
  revert a st. induction path as [|pos rest IH]; intros a st Hd Ht.
  - simpl. split; [|split; reflexivity].
    apply Forall2_same. intro s. split; [apply sameButOffset_refl|].
    destruct (String.eqb (id s) slotId); [|reflexivity].
    unfold Qdiv. split; ring.
  - cbn [pointerMoves]. rewrite (pointerMove_slot a st pos slotId Hd Ht).
    rewrite last_cons.
    match goal with
    | |- context [pointerMoves ?a1 ?st1 rest] =>
        destruct (IH a1 st1 eq_refl eq_refl) as [Hrest [Hp Hm]]
    end.
    split; [|split; assumption].
    eapply Forall2_compose;
      [| apply (handleUpdateSlotOffset_spec slotId
                  (pt_x (dRel st pos) * width (canvasProps a) / scaleBase (canvasProps a))
                  (pt_y (dRel st pos) * height (canvasProps a) / scaleBase (canvasProps a))
                  (app_slots a))
       | exact Hrest].
    intros s s1 s' [Hs1 H1] [Hs2 H2]. cbv beta in H1, H2.
    split; [exact (sameButOffset_trans s s1 s' Hs1 Hs2)|].
    assert (Hid : id s1 = id s) by (destruct Hs1 as [E _]; exact E).
    rewrite Hid in H2.
    destruct (String.eqb (id s) slotId).
    + destruct H1 as [Hx1 Hy1]. destruct H2 as [Hx2 Hy2].
      cbn [lastMousePos] in Hx2, Hy2.
      change (canvasProps
                (mkApp (handleUpdateSlotOffset slotId
                          (pt_x (dRel st pos) * width (canvasProps a) / scaleBase (canvasProps a))
                          (pt_y (dRel st pos) * height (canvasProps a) / scaleBase (canvasProps a))
                          (app_slots a))
                       (app_message a) (app_messagePos a) (selectedFormat a)
                       (previewWidth a)))
        with (mkProps (handleUpdateSlotOffset slotId
                          (pt_x (dRel st pos) * width (canvasProps a) / scaleBase (canvasProps a))
                          (pt_y (dRel st pos) * height (canvasProps a) / scaleBase (canvasProps a))
                          (app_slots a))
                      (width (canvasProps a)) (height (canvasProps a))
                      (previewWidth a) (Some (app_message a)) (app_messagePos a))
        in Hx2, Hy2.
      change (contentSize (mkProps ?l (width (canvasProps a)) (height (canvasProps a)) ?d ?m ?mp))
        with (contentSize (canvasProps a)) in Hx2, Hy2.
      cbn [width height] in Hx2, Hy2.
      rewrite Hx2, Hy2, Hx1, Hy1.
      unfold contentSize, dRel, Qdiv. cbn [pt_x pt_y sub Q_Number].
      split; ring.
    + subst s1. exact H2.
Qed.

Lemma slot_drag_follows_pointer_witness :
  isDragging (mkController true (Some (TargetSlot "slot-0")) (mkPoint (1 # 2) (14 # 100)) "grab") = true /\
  app_messagePos
    (fst (pointerMoves Sample.app
            (mkController true (Some (TargetSlot "slot-0")) (mkPoint (1 # 2) (14 # 100)) "grab")
            [mkPoint (3 # 10) (1 # 10); mkPoint (55 # 100) (14 # 100)]))
  = app_messagePos Sample.app.
Proof.
  split; [reflexivity|].
  exact (proj1 (proj2 (slot_drag_follows_pointer Sample.app
           (mkController true (Some (TargetSlot "slot-0")) (mkPoint (1 # 2) (14 # 100)) "grab")
           [mkPoint (3 # 10) (1 # 10); mkPoint (55 # 100) (14 # 100)] "slot-0"
           eq_refl eq_refl))).
Defined.

End SlotDragPaths.

(* ================================================================= *)
(** ** The host's slots *)

Section HostSlots.

Context {num : Type} {N : Number num}.

Lemma map_unchanged {A : Type} (f : A -> A) (l : list A) :
  (forall x, In x l -> f x = x) -> map f l = l.
Proof.
  induction l as [|x l IH]; intro Hf; simpl; [reflexivity|].
  rewrite Hf by (left; reflexivity).
  rewrite IH; [reflexivity|]. intros y Hy. apply Hf. right. exact Hy.
Qed.

(** X5.  An upload or a pan addressed to an id that no slot has leaves the
    slot list as it is. *)
Theorem unknown_id_changes_nothing (slotId : string) (slots : list (PhotoSlot num)) :
  (forall s, In s slots -> id s <> slotId) ->
  (forall dx dy, handleUpdateSlotOffset slotId dx dy slots = slots) /\
  (forall img, handleUpload slotId img slots = slots).
Proof.
  intro Hno.
  assert (Hneq : forall s, In s slots -> String.eqb (id s) slotId = false)
    by (intros s Hs; apply String.eqb_neq, Hno, Hs).
  split; intros; apply map_unchanged; intros s Hs; rewrite (Hneq s Hs); reflexivity.
Qed.

(** What of a slot no host action changes. *)
Lemma hostStep_frame (slots : list (PhotoSlot num)) (a : HostAction num) :
  map (fun s => (id s, label s, x s, y s, radius s, isCenter s)) (hostStep slots a)
  = map (fun s => (id s, label s, x s, y s, radius s, isCenter s)) slots.
Proof.
  destruct a as [slotId img | slotId dx dy]; simpl;
    unfold handleUpload, handleUpdateSlotOffset; rewrite map_map;
    apply map_ext; intro s; destruct (String.eqb (id s) slotId); reflexivity.
Qed.

Lemma hostRun_frame (actions : list (HostAction num)) (slots : list (PhotoSlot num)) :
  map (fun s => (id s, label s, x s, y s, radius s, isCenter s)) (hostRun slots actions)
  = map (fun s => (id s, label s, x s, y s, radius s, isCenter s)) slots.
Proof.
  revert slots. induction actions as [|a rest IH]; intro slots; [reflexivity|].
  unfold hostRun. simpl. fold (hostRun (hostStep slots a) rest).
  rewrite IH. apply hostStep_frame.
Qed.

Context {T : Trig num}.

(** X6.  Whatever uploads and pans have happened since start-up, the host
    has the same thirteen slots in the same order: ids "slot-0" to
    "slot-11" and "birthday", all different; labels, centres, radii and
    centre flags as created; so element 12, which the page hands to the
    large uploader, is the centre slot, and the twelve before it are the
    ring. *)
Theorem slots_keep_their_frame (actions : list (HostAction num)) :
  map (@id num) (hostRun INITIAL_SLOTS actions)
  = [ "slot-0"; "slot-1"; "slot-2"; "slot-3"; "slot-4"; "slot-5"; "slot-6";
      "slot-7"; "slot-8"; "slot-9"; "slot-10"; "slot-11"; "birthday" ] /\
  NoDup (map (@id num) (hostRun INITIAL_SLOTS actions)) /\
  map (@isCenter num) (hostRun INITIAL_SLOTS actions)
  = [ false; false; false; false; false; false; false; false; false; false;
      false; false; true ] /\
  map (fun s => (label s, x s, y s, radius s)) (hostRun INITIAL_SLOTS actions)
  = map (fun s => (label s, x s, y s, radius s)) INITIAL_SLOTS /\
  (exists b, nth_error (hostRun INITIAL_SLOTS actions) 12 = Some b /\
             id b = "birthday" /\ isCenter b = true).
Proof.
  pose proof (hostRun_frame actions INITIAL_SLOTS) as Hframe.
  assert (Hid : map (@id num) (hostRun INITIAL_SLOTS actions)
                = map (@id num) INITIAL_SLOTS).
  { apply (f_equal (map (fun t : string * string * num * num * num * bool =>
                           fst (fst (fst (fst (fst t))))))) in Hframe.
    rewrite !map_map in Hframe. exact Hframe. }
  assert (Hc : map (@isCenter num) (hostRun INITIAL_SLOTS actions)
               = map (@isCenter num) INITIAL_SLOTS).
  { apply (f_equal (map (fun t : string * string * num * num * num * bool =>
                           snd t))) in Hframe.
    rewrite !map_map in Hframe. exact Hframe. }
  assert (Hg : map (fun s => (label s, x s, y s, radius s)) (hostRun INITIAL_SLOTS actions)
               = map (fun s => (label s, x s, y s, radius s)) INITIAL_SLOTS).
  { apply (f_equal (map (fun t : string * string * num * num * num * bool =>
                           match t with (_, l, cx, cy, r, _) => (l, cx, cy, r) end)))
      in Hframe.
    rewrite !map_map in Hframe. exact Hframe. }
  split; [rewrite Hid; reflexivity|].
  split.
  { rewrite Hid. cbv -[String.append]. 
    repeat (constructor; [simpl; intuition discriminate|]). constructor. }
  split; [rewrite Hc; reflexivity|].
  split; [exact Hg|].
  destruct (nth_error (hostRun INITIAL_SLOTS actions) 12) as [b|] eqn:Hb.
  - exists b. split; [reflexivity|].
    pose proof (map_nth_error (@id num) 12 _ Hb) as Hbi.
    pose proof (map_nth_error (@isCenter num) 12 _ Hb) as Hbc.
    rewrite Hid in Hbi. rewrite Hc in Hbc.
    simpl in Hbi, Hbc. injection Hbi as Hbi. injection Hbc as Hbc.
    split; congruence.
  - exfalso. apply nth_error_None in Hb.
    apply (f_equal (@List.length string)) in Hid.
    rewrite length_map in Hid. simpl in Hid. lia.
Qed.

End HostSlots.

Lemma unknown_id_changes_nothing_witness :
  (forall s, In s (app_slots Sample.app) -> id s <> "slot-7") /\
  handleUpload "slot-7" Sample.wide (app_slots Sample.app) = app_slots Sample.app.
Proof.
  assert (Hno : forall s, In s (app_slots Sample.app) -> id s <> "slot-7").
  { intros s [<- | [<- | []]]; discriminate. }
  split; [exact Hno|].
  exact (proj2 (@unknown_id_changes_nothing Q _ "slot-7" (app_slots Sample.app) Hno)
           Sample.wide).
Defined.

(* ================================================================= *)
(** ** Geometry in exact arithmetic *)

Section Geometry.

Local Open Scope Q_scope.

Lemma aspectFill_cases (img : Image Q) (cx cy r : Q) :
  aspectFill img cx cy r =
    mkRect (cx - r * 2 * imgAspect img / 2) (cy - r) (r * 2 * imgAspect img) (r * 2)
  \/
  aspectFill img cx cy r =
    mkRect (cx - r) (cy - r * 2 / imgAspect img / 2) (r * 2) (r * 2 / imgAspect img).
Proof.
  destruct (Qlt_le_dec 1 (imgAspect img)) as [Hwide | Htall].
  - left. apply aspectFill_wide. exact Hwide.
  - right. apply aspectFill_tall. exact Htall.
Qed.

Lemma aspectFill_centred (img : Image Q) (cx cy r : Q) :
  centredOn (aspectFill img cx cy r) cx cy.
Proof.
  unfold centredOn.
  destruct (aspectFill_cases img cx cy r) as [E | E]; rewrite E;
    cbn [offsetX offsetY drawWidth drawHeight]; split;
    first [unfold Qdiv; ring | field].
Qed.

(** With the pan at zero the rectangle drawn is the aspect-fill one. *)
Lemma drawSlotImage_zero_pan (p : Props Q) (s : PhotoSlot Q) (img : Image Q) :
  image s = Some img -> imageOffsetX s = 0 -> imageOffsetY s = 0 ->
  exists d, drawSlotImage p s = Some d /\
    offsetX d == offsetX (aspectFill img (slotCx p s) (slotCy p s) (slotR p s)) /\
    offsetY d == offsetY (aspectFill img (slotCx p s) (slotCy p s) (slotR p s)) /\
    drawWidth d = drawWidth (aspectFill img (slotCx p s) (slotCy p s) (slotR p s)) /\
    drawHeight d = drawHeight (aspectFill img (slotCx p s) (slotCy p s) (slotR p s)).
Proof.
  intros Hi Hx Hy. unfold drawSlotImage. rewrite Hi.
  eexists. split; [reflexivity|].
  unfold applyPan. cbn [offsetX offsetY drawWidth drawHeight].
  rewrite Hx, Hy. cbn [add mul Q_Number].
  repeat split; ring.
Qed.

(** X7.  When an upload completes, the slot with that id holds the new
    image with its pan back at zero, so the image is drawn centred on the
    slot's circle whatever the pan of the image before; the other slots are
    the same. *)
Theorem upload_recentres_image (p : Props Q) (slotId : string) (img : Image Q)
        (prev : list (PhotoSlot Q)) :
  0 < img_width img -> 0 < img_height img ->
  Forall2 (fun s s' =>
             if String.eqb (id s) slotId
             then (id s' = id s /\ label s' = label s /\ x s' = x s /\
                   y s' = y s /\ radius s' = radius s /\
                   isCenter s' = isCenter s) /\
                  image s' = Some img /\
                  imageOffsetX s' = 0 /\ imageOffsetY s' = 0 /\
                  exists d, drawSlotImage p s' = Some d /\
                            centredOn d (slotCx p s) (slotCy p s)
             else s' = s)
          prev (handleUpload slotId img prev).
Proof.
  intros _ _. induction prev as [|s rest IH]; simpl; constructor; [|exact IH].
  destruct (String.eqb (id s) slotId); [|reflexivity].
  set (s' := mkSlot (id s) (label s) (Some img) (x s) (y s) (radius s)
                    (isCenter s) (lit 0) (lit 0)).
  split; [repeat split|].
  split; [reflexivity|]. split; [reflexivity|]. split; [reflexivity|].
  destruct (drawSlotImage_zero_pan p s' img eq_refl eq_refl eq_refl)
    as [d [Hd [Hx [Hy [Hw Hh]]]]].
  exists d. split; [exact Hd|].
  pose proof (aspectFill_centred img (slotCx p s') (slotCy p s') (slotR p s')) as [Cx Cy].
  unfold centredOn. rewrite Hx, Hy, Hw, Hh. split; [exact Cx | exact Cy].
Qed.

Lemma upload_recentres_image_witness :
  0 < img_width Sample.wide /\ 0 < img_height Sample.wide /\
  Forall2 (fun s s' => String.eqb (id s) "slot-0" = true -> image s' = Some Sample.wide)
          (app_slots Sample.app)
          (handleUpload "slot-0" Sample.wide (app_slots Sample.app)).
Proof.
  split; [reflexivity|]. split; [reflexivity|].
  eapply Forall2_impl;
    [| exact (upload_recentres_image (canvasProps Sample.app) "slot-0" Sample.wide
                (app_slots Sample.app) eq_refl eq_refl)].
  intros s s' Hs Hid. cbv beta in Hs. rewrite Hid in Hs.
  destruct Hs as [_ [Hi _]]. exact Hi.
Defined.

Lemma Qmin_scale (k a b : Q) : 0 < k -> Qmin (k * a) (k * b) == k * Qmin a b.
Proof.
  intro Hk.
  destruct (Q.min_spec a b) as [[Hlt E] | [Hle E]]; rewrite E.
  - apply Q.min_l. nra.
  - apply Q.min_r. nra.
Qed.

Lemma aspectFill_scale (img : Image Q) (k cx cy r cx' cy' r' : Q) :
  cx' == k * cx -> cy' == k * cy -> r' == k * r ->
  offsetX (aspectFill img cx' cy' r') == k * offsetX (aspectFill img cx cy r) /\
  offsetY (aspectFill img cx' cy' r') == k * offsetY (aspectFill img cx cy r) /\
  drawWidth (aspectFill img cx' cy' r') == k * drawWidth (aspectFill img cx cy r) /\
  drawHeight (aspectFill img cx' cy' r') == k * drawHeight (aspectFill img cx cy r).
Proof.
  intros Hx Hy Hr.
  destruct (Qlt_le_dec 1 (imgAspect img)) as [Hwide | Htall].
  - rewrite !(aspectFill_wide img _ _ _ Hwide).
    cbn [offsetX offsetY drawWidth drawHeight]. unfold Qdiv.
    rewrite Hx, Hy, Hr. repeat split; ring.
  - rewrite !(aspectFill_tall img _ _ _ Htall).
    cbn [offsetX offsetY drawWidth drawHeight]. unfold Qdiv.
    rewrite Hx, Hy, Hr. repeat split; ring.
Qed.

(** X8.  The placement of a slot's image scales with the target: on a
    canvas [k] times as wide and as high ([k > 0]) the rectangle passed to
    [drawImage] has its corner, width and height multiplied by [k], pan
    included, so the preview and the export show the same picture. *)
Theorem image_placement_scales (p : Props Q) (k : Q) (slot : PhotoSlot Q) (img : Image Q) :
  0 < k -> image slot = Some img ->
  exists d d',
    drawSlotImage p slot = Some d /\
    drawSlotImage (mkProps (slots p) (k * width p) (k * height p) (displaySize p)
                           (message p) (messagePos p)) slot = Some d' /\
    offsetX d' == k * offsetX d /\ offsetY d' == k * offsetY d /\
    drawWidth d' == k * drawWidth d /\ drawHeight d' == k * drawHeight d.
Proof.
  intros Hk Hi. unfold drawSlotImage. rewrite Hi.
  eexists. eexists. split; [reflexivity|]. split; [reflexivity|].
  set (p' := mkProps (slots p) (k * width p) (k * height p) (displaySize p)
                     (message p) (messagePos p)).
  assert (Hs : scaleBase p' == k * scaleBase p)
    by (apply (Qmin_scale k (width p) (height p) Hk)).
  assert (Hcx : slotCx p' slot == k * slotCx p slot).
  { unfold slotCx, paddingX, contentSize. cbn [add sub mul div lit Q_Number].
    rewrite Hs. unfold p'. cbn [width]. unfold Qdiv. ring. }
  assert (Hcy : slotCy p' slot == k * slotCy p slot).
  { unfold slotCy, paddingY, contentSize. cbn [add sub mul div lit Q_Number].
    rewrite Hs. unfold p'. cbn [height]. unfold Qdiv. ring. }
  assert (Hr : slotR p' slot == k * slotR p slot).
  { unfold slotR, contentSize. cbn [mul Q_Number]. rewrite Hs. ring. }
  destruct (aspectFill_scale img k _ _ _ _ _ _ Hcx Hcy Hr) as [Ax [Ay [Aw Ah]]].
  unfold applyPan. cbn [offsetX offsetY drawWidth drawHeight add mul Q_Number].
  rewrite Ax, Ay, Aw, Ah, Hs. repeat split; ring.
Qed.

Lemma image_placement_scales_witness :
  0 < (1 # 5) /\
  exists d d',
    drawSlotImage (Sample.props (mkPoint (1 # 2) (92 # 100))) Sample.ringSlot = Some d /\
    drawSlotImage (mkProps [Sample.ringSlot; Sample.heroSlot] ((1 # 5) * 3000)
                           ((1 # 5) * 3000) 600 (Some "Happy 1st Birthday!")
                           (mkPoint (1 # 2) (92 # 100))) Sample.ringSlot = Some d' /\
    drawHeight d' == (1 # 5) * drawHeight d.
Proof.
  split; [reflexivity|].
  assert (Hi : image (@Sample.ringSlot Q _) = Some (mkImage 4000 2000))
    by reflexivity.
  destruct (image_placement_scales (Sample.props (mkPoint (1 # 2) (92 # 100))) (1 # 5)
              Sample.ringSlot (mkImage 4000 2000) eq_refl Hi)
    as [d [d' [Hd [Hd' [_ [_ [_ Hh]]]]]]].
  exists d, d'. split; [exact Hd|]. split; [exact Hd'|]. exact Hh.
Defined.

End Geometry.

(* ================================================================= *)
(** ** The content square, the display box and the pointer position *)

Section Layout.

Local Open Scope Q_scope.

Lemma unit_times_side (u c : Q) : 0 <= u <= 1 -> 0 <= c -> 0 <= u * c <= c.
Proof.
  intros [Hu0 Hu1] Hc. split.
  - apply Qmult_le_0_compat; assumption.
  - setoid_replace c with (1 * c) at 2 by ring.
    apply Qmult_le_compat_r; assumption.
Qed.

(** X9.  The content square is centred in the canvas and never sticks out:
    both paddings are non-negative, twice a padding plus the content size
    is the canvas side, and one of the two paddings is zero.  On a canvas
    of non-negative sides every point of the unit square lands inside the
    canvas. *)
Theorem content_square_centred (p : Props Q) :
  0 <= paddingX p /\ 0 <= paddingY p /\
  2 * paddingX p + contentSize p == width p /\
  2 * paddingY p + contentSize p == height p /\
  (paddingX p == 0 \/ paddingY p == 0) /\
  (forall u : Point Q,
      0 <= width p -> 0 <= height p ->
      0 <= pt_x u <= 1 -> 0 <= pt_y u <= 1 ->
      0 <= pt_x (unitToPixel p u) <= width p /\
      0 <= pt_y (unitToPixel p u) <= height p).
Proof.
  unfold unitToPixel, paddingX, paddingY, contentSize, scaleBase.
  cbn [pt_x pt_y add sub mul div lit Math_min Q_Number].
  set (w := width p). set (h := height p). clearbody w h.
  unfold Qdiv. change (/ 2) with (1 # 2).
  set (c := Qmin w h).
  assert (Hc : (w < h /\ c == w) \/ (h <= w /\ c == h)) by apply Q.min_spec.
  clearbody c.
  split; [destruct Hc as [[Hlt E] | [Hle E]]; lra|].
  split; [destruct Hc as [[Hlt E] | [Hle E]]; lra|].
  split; [lra|]. split; [lra|].
  split; [destruct Hc as [[Hlt E] | [Hle E]]; [left | right]; lra|].
  intros u Hw Hh Hx Hy.
  assert (Hc0 : 0 <= c) by (destruct Hc as [[Hlt E] | [Hle E]]; lra).
  pose proof (unit_times_side (pt_x u) c Hx Hc0) as Hux.
  pose proof (unit_times_side (pt_y u) c Hy Hc0) as Huy.
  set (ax := pt_x u * c) in *. set (ay := pt_y u * c) in *. clearbody ax ay.
  destruct Hc as [[Hlt E] | [Hle E]]; split; lra.
Qed.

Lemma content_square_centred_witness :
  0 <= width (mkProps [] 3200 1800 600 None (mkPoint 0 0)) /\
  0 <= pt_x (unitToPixel (mkProps [] 3200 1800 600 None (mkPoint 0 0))
                         (mkPoint 1 (1 # 2)))
       <= width (mkProps [] 3200 1800 600 None (mkPoint 0 0)).
Proof.
  assert (Hw : 0 <= width (mkProps [] 3200 1800 600 None (mkPoint 0 0)))
    by (apply Qle_bool_iff; reflexivity).
  assert (Hh : 0 <= height (mkProps [] 3200 1800 600 None (mkPoint 0 0)))
    by (apply Qle_bool_iff; reflexivity).
  assert (Hx : 0 <= pt_x (mkPoint 1 (1 # 2)) <= 1)
    by (split; apply Qle_bool_iff; reflexivity).
  assert (Hy : 0 <= pt_y (mkPoint 1 (1 # 2)) <= 1)
    by (split; apply Qle_bool_iff; reflexivity).
  split; [exact Hw|].
  pose proof (content_square_centred (mkProps [] 3200 1800 600 None (mkPoint 0 0)))
    as [_ [_ [_ [_ [_ Hin]]]]].
  exact (proj1 (Hin (mkPoint 1 (1 # 2)) Hw Hh Hx Hy)).
Defined.

(** X10.  The box the canvas is shown in has the proportions of the
    target: its height times the target width is its width times the target
    height, so the preview is not distorted. *)
Theorem display_box_keeps_proportions (p : Props Q) :
  0 < width p -> 0 < height p ->
  ExportAdapter.box_height (ExportAdapter.render p) * width p
  == ExportAdapter.box_width (ExportAdapter.render p) * height p.
Proof.
  intros Hw Hh. unfold ExportAdapter.render.
  cbn [ExportAdapter.box_height ExportAdapter.box_width div Q_Number].
  field. split; intro E; lra.
Qed.

Lemma display_box_keeps_proportions_witness :
  0 < 2160 /\ 0 < 3840 /\
  ExportAdapter.box_height
    (ExportAdapter.render (mkProps [] 2160 3840 600 None (mkPoint 0 0))) * 2160
  == 600 * 3840.
Proof.
  split; [reflexivity|]. split; [reflexivity|].
  exact (display_box_keeps_proportions (mkProps [] 2160 3840 600 None (mkPoint 0 0))
           eq_refl eq_refl).
Defined.

(** X11.  [getRelativePos] undoes the placement of the canvas on the page:
    a pointer at the fraction [(fx, fy)] of the canvas's box is read as
    [(fx, fy)], wherever the box is and whatever its size; with no canvas
    the position read is the origin. *)
Theorem relative_pos_of_fraction (rect : Rect Q) (fx fy : Q) :
  0 < rect_width rect -> 0 < rect_height rect ->
  Qpoint_eq
    (getRelativePos (Some rect)
       (rect_left rect + fx * rect_width rect)
       (rect_top rect + fy * rect_height rect))
    (mkPoint fx fy) /\
  (forall clientX clientY : Q, getRelativePos None clientX clientY = mkPoint 0 0).
Proof.
  intros Hw Hh. split; [|reflexivity].
  unfold Qpoint_eq, getRelativePos. cbn [pt_x pt_y add sub mul div Q_Number].
  split; field; intro E; lra.
Qed.

Lemma relative_pos_of_fraction_witness :
  0 < rect_width (mkDOMRect 40 120 600 600) /\
  Qpoint_eq (getRelativePos (Some (mkDOMRect 40 120 600 600))
               (40 + (1 # 2) * 600) (120 + (14 # 100) * 600))
            (mkPoint (1 # 2) (14 # 100)).
Proof.
  split; [reflexivity|].
  exact (proj1 (relative_pos_of_fraction (mkDOMRect 40 120 600 600) (1 # 2) (14 # 100)
                  eq_refl eq_refl)).
Defined.

End Layout.

(* ================================================================= *)
(** ** Progress *)

Section Progress.

Local Open Scope Q_scope.

Lemma completedCount_le {num : Type} (slots : list (PhotoSlot num)) :
  (completedCount slots <= List.length slots)%nat.
Proof. apply filter_length_le. Qed.

Lemma completedCount_all {num : Type} (slots : list (PhotoSlot num)) :
  Forall (fun s => image s <> None) slots ->
  completedCount slots = List.length slots.
Proof.
  unfold completedCount. intro Hall.
  induction Hall as [|s rest Hs _ IH]; simpl; [reflexivity|].
  unfold holdsImage at 1. destruct (image s); [simpl; rewrite IH; reflexivity | congruence].
Qed.

Lemma completedCount_missing {num : Type} (slots : list (PhotoSlot num)) :
  (exists s, In s slots /\ image s = None) ->
  (completedCount slots < List.length slots)%nat.
Proof.
  unfold completedCount. intros [s [Hin Hs]].
  induction slots as [|t rest IH]; [destruct Hin|].
  simpl. destruct Hin as [-> | Hin].
  - unfold holdsImage at 1. rewrite Hs.
    pose proof (filter_length_le (fun s => holdsImage s) rest). lia.
  - specialize (IH Hin). destruct (holdsImage t); simpl; lia.
Qed.

Lemma inject_Z_lt (a b : Z) : (a < b)%Z -> inject_Z a < inject_Z b.
Proof. intro Hab. rewrite <- Zlt_Qlt. exact Hab. Qed.

Lemma inject_Z_le (a b : Z) : (a <= b)%Z -> inject_Z a <= inject_Z b.
Proof. intro Hab. rewrite <- Zle_Qle. exact Hab. Qed.

Lemma Math_round_bounds (c n : Z) :
  (0 <= c <= n)%Z -> (0 < n)%Z ->
  (0 <= Math_round (inject_Z c / inject_Z n * 100) <= 100)%Z /\
  (c = n -> Math_round (inject_Z c / inject_Z n * 100) = 100%Z) /\
  (c < n -> n < 200 -> Math_round (inject_Z c / inject_Z n * 100) < 100)%Z.
Proof.
  intros Hc Hn. unfold Math_round.
  assert (HnQ : 0 < inject_Z n) by exact (inject_Z_lt 0 n Hn).
  assert (HcQ : 0 <= inject_Z c) by exact (inject_Z_le 0 c (proj1 Hc)).
  assert (HcnQ : inject_Z c <= inject_Z n) by exact (inject_Z_le c n (proj2 Hc)).
  set (v := inject_Z c / inject_Z n * 100).
  assert (Hv0 : 0 <= v).
  { unfold v. apply Qmult_le_0_compat; [|discriminate].
    apply Qle_shift_div_l; [exact HnQ|]. lra. }
  assert (Hv100 : v <= 100).
  { unfold v. setoid_replace 100 with (1 * 100) at 2 by ring.
    apply Qmult_le_compat_r; [|discriminate].
    apply Qle_shift_div_r; [exact HnQ|]. lra. }
  split; [split|split].
  - change 0%Z with (Qfloor 0). apply Qfloor_resp_le. lra.
  - change 100%Z with (Qfloor (100 + (1 # 2))). apply Qfloor_resp_le. lra.
  - intros ->. unfold v.
    assert (E : inject_Z n / inject_Z n * 100 + (1 # 2) == 100 + (1 # 2)).
    { field. intro Z. rewrite Z in HnQ. discriminate. }
    rewrite (Qfloor_comp _ _ E). reflexivity.
  - intros Hlt H200.
    assert (Hc1 : inject_Z c <= inject_Z n - 1).
    { setoid_replace (inject_Z n - 1) with (inject_Z (n - 1)).
      - apply inject_Z_le. lia.
      - unfold Zminus. rewrite inject_Z_plus. reflexivity. }
    assert (Hn200 : inject_Z n < 200) by exact (inject_Z_lt n 200 H200).
    assert (Hq : inject_Z c / inject_Z n <= 1 - 1 / inject_Z n).
    { apply Qle_shift_div_r; [exact HnQ|].
      setoid_replace ((1 - 1 / inject_Z n) * inject_Z n) with (inject_Z n - 1);
        [exact Hc1|]. field. intro Z. rewrite Z in HnQ. discriminate. }
    assert (Hinv : 1 # 200 < 1 / inject_Z n).
    { apply Qlt_shift_div_l; [exact HnQ|]. lra. }
    assert (Hlt100 : v + (1 # 2) < 100) by (unfold v; lra).
    apply Z.lt_nge. intro Hge.
    pose proof (Qfloor_le (v + (1 # 2))) as Hfl.
    pose proof (inject_Z_le 100 (Qfloor (v + (1 # 2))) Hge) as H100.
    change (inject_Z 100) with 100 in H100. lra.
Qed.

(** X12.  The progress figure is no number for an empty slot list;
    otherwise it lies between 0 and 100, it is 100 when every slot holds an
    image, and, with fewer than 200 slots, it is below 100 as long as some
    slot holds none. *)
Theorem progress_bounds (slots : list (PhotoSlot Q)) :
  (progress [] = None) /\
  (slots <> [] ->
   exists z, progress slots = Some z /\ (0 <= z <= 100)%Z /\
     (Forall (fun s => image s <> None) slots -> z = 100%Z) /\
     ((exists s, In s slots /\ image s = None) ->
      (List.length slots < 200)%nat -> (z < 100)%Z)).
Proof.
  split; [reflexivity|]. intro Hne.
  unfold progress. destruct slots as [|s0 rest] eqn:Hs; [congruence|].
  rewrite <- Hs in *. clear Hne.
  assert (Hlen : (0 < List.length slots)%nat) by (rewrite Hs; simpl; lia).
  destruct (List.length slots) as [|n'] eqn:Hl; [lia|]. rewrite <- Hl in *.
  pose proof (completedCount_le slots) as Hle.
  destruct (Math_round_bounds (Z.of_nat (completedCount slots))
              (Z.of_nat (List.length slots))) as [Hb [Hfull Hpart]]; [lia | lia |].
  eexists. split; [reflexivity|]. split; [exact Hb|]. split.
  - intro Hall. apply Hfull. rewrite (completedCount_all slots Hall). reflexivity.
  - intros Hmiss H200. apply Hpart.
    + pose proof (completedCount_missing slots Hmiss). lia.
    + lia.
Qed.

Lemma progress_bounds_witness :
  app_slots Sample.app <> [] /\
  exists z, progress (app_slots Sample.app) = Some z /\ (0 <= z <= 100)%Z.
Proof.
  split; [discriminate|].
  destruct (proj2 (progress_bounds (app_slots Sample.app)) ltac:(discriminate))
    as [z [Hz [Hb _]]].
  exists z. split; [exact Hz | exact Hb].
Defined.

End Progress.

(* ================================================================= *)
(** ** The wrapped caption *)

Section GreedyWrap.

Context {num : Type} {N : Number num}.
Variable measureText : string -> num.
Variable maxWidth : num.
Local Open Scope num_scope.

Lemma breaksForced_snoc_new (prev : list (list string)) (cur : list string) (w : string) :
  breaksForced measureText maxWidth (prev ++ [cur]) ->
  lt maxWidth (measureText (lineOf (cur ++ [w]))) = true ->
  breaksForced measureText maxWidth ((prev ++ [cur]) ++ [[w]]).
Proof.
  intros Hb Hw. induction prev as [|g prev IH].
  - simpl. repeat split; assumption.
  - simpl in Hb |- *. destruct Hb as [Hg Hrest].
    split; [|exact (IH Hrest)].
    destruct prev as [|g' prev]; simpl in Hg |- *; [exact Hg|].
    exact Hg.
Qed.

Lemma breaksForced_snoc_extend (prev : list (list string)) (cur : list string) (w : string) :
  cur <> [] ->
  breaksForced measureText maxWidth (prev ++ [cur]) ->
  breaksForced measureText maxWidth (prev ++ [(cur ++ [w])%list]).
Proof.
  intros Hne Hb. induction prev as [|g prev IH].
  - simpl. split; exact I.
  - simpl in Hb |- *. destruct Hb as [Hg Hrest].
    split; [|exact (IH Hrest)].
    destruct prev as [|g' prev]; simpl in Hg |- *.
    + destruct cur as [|c cur]; [congruence|]. exact Hg.
    + exact Hg.
Qed.

(** The loop, with everything it keeps: whole words in order, no empty
    line, every line fitting or one word long, every break forced. *)
Lemma wrapLoop_greedy (words : list string) :
  forall (n : nat) (cur : list string) (prev : list (list string)),
    (n = 0%nat -> cur = [] /\ prev = []) ->
    (n <> 0%nat -> cur <> []) ->
    Forall (fun g => g <> []) prev ->
    Forall (lineFits measureText maxWidth) prev ->
    (cur <> [] -> lineFits measureText maxWidth cur) ->
    (cur <> [] -> breaksForced measureText maxWidth (prev ++ [cur])) ->
    exists cur' prev',
      wrapLoop measureText maxWidth words n (lineOf cur) (map lineOf prev)
      = (lineOf cur', map lineOf prev') /\
      (List.concat prev' ++ cur' = List.concat prev ++ cur ++ words)%list /\
      Forall (fun g => g <> []) prev' /\
      Forall (lineFits measureText maxWidth) prev' /\
      (cur' <> [] -> lineFits measureText maxWidth cur') /\
      (cur' <> [] -> breaksForced measureText maxWidth (prev' ++ [cur'])) /\
      (words <> [] \/ n <> 0%nat -> cur' <> []).
Proof.
  induction words as [|w rest IH]; intros n cur prev Hzero Hpos Hprev Hfit Hcur Hbr.
  - exists cur, prev. simpl. rewrite app_nil_r.
    repeat split; try assumption.
    intros [Hw | Hn]; [congruence | auto].
  - simpl.
    destruct ((measureText (lineOf cur ++ w ++ " ") >? maxWidth) && (0 <? n)%nat)
      eqn:Hbreak.
    + apply andb_true_iff in Hbreak. destruct Hbreak as [Hwide Hn].
      apply Nat.ltb_lt in Hn.
      assert (Hne : cur <> []) by (apply Hpos; lia).
      rewrite <- lineOf_snoc in Hwide.
      destruct (IH (S n) [w] (prev ++ [cur])%list)
        as [cur' [prev' [Hrun [Hcat [Hne' [Hfit' [Hcur' [Hbr' Hlast]]]]]]]].
      * discriminate.
      * discriminate.
      * apply Forall_app. split; [exact Hprev | constructor; [exact Hne | constructor]].
      * apply Forall_app. split; [exact Hfit | constructor; [exact (Hcur Hne) | constructor]].
      * intros _. right. exists w. reflexivity.
      * intros _. apply breaksForced_snoc_new; [exact (Hbr Hne) | exact Hwide].
      * exists cur', prev'.
        rewrite map_app in Hrun. simpl in Hrun. rewrite lineOf_single in Hrun.
        rewrite Hrun. repeat split; try assumption.
        -- rewrite Hcat, concat_app. simpl. rewrite app_nil_r, <- app_assoc.
           reflexivity.
        -- intros _. apply Hlast. right. discriminate.
    + assert (Hfits : cur <> [] -> lt maxWidth (measureText (lineOf (cur ++ [w]))) = false).
      { intro Hne. rewrite lineOf_snoc.
        apply andb_false_iff in Hbreak. destruct Hbreak as [Hw | Hn]; [exact Hw|].
        apply Nat.ltb_ge in Hn. exfalso.
        assert (n = 0%nat) by lia. destruct (Hzero H) as [E _]. congruence. }
      destruct (IH (S n) (cur ++ [w])%list prev)
        as [cur' [prev' [Hrun [Hcat [Hne' [Hfit' [Hcur' [Hbr' Hlast]]]]]]]].
      * discriminate.
      * intros _ E. destruct cur; discriminate E.
      * exact Hprev.
      * exact Hfit.
      * intros _. destruct cur as [|c cur0] eqn:Ec.
        -- right. exists w. reflexivity.
        -- left. apply Hfits. discriminate.
      * intros _. destruct cur as [|c cur0] eqn:Ec.
        -- assert (Hn0 : n = 0%nat).
           { destruct n; [reflexivity|]. exfalso. apply Hpos; [discriminate | reflexivity]. }
           destruct (Hzero Hn0) as [_ ->]. simpl. split; exact I.
        -- apply breaksForced_snoc_extend; [discriminate|]. apply Hbr. discriminate.
      * exists cur', prev'.
        rewrite lineOf_snoc in Hrun. rewrite Hrun. repeat split; try assumption.
        -- rewrite Hcat, <- app_assoc. reflexivity.
        -- intros _. apply Hlast. right. discriminate.
Qed.

Lemma wrapLines_greedy (words : list string) :
  words <> [] ->
  exists groups,
    wrapLines measureText maxWidth words = map lineOf groups /\
    List.concat groups = words /\
    Forall (fun g => g <> []) groups /\
    Forall (lineFits measureText maxWidth) groups /\
    breaksForced measureText maxWidth groups.
Proof.
  intro Hne.
  destruct (wrapLoop_greedy words 0 [] [])
    as [cur' [prev' [Hrun [Hcat [Hprev [Hfit [Hcur [Hbr Hlast]]]]]]]].
  - intros _. split; reflexivity.
  - intro H. congruence.
  - constructor.
  - constructor.
  - intro H. congruence.
  - intro H. congruence.
  - assert (Hc : cur' <> []) by (apply Hlast; left; exact Hne).
    exists (prev' ++ [cur'])%list.
    change (lineOf []) with "" in Hrun.
    change (map lineOf []) with (@nil string) in Hrun.
    unfold wrapLines. rewrite Hrun. repeat split.
    + rewrite map_app. reflexivity.
    + rewrite concat_app. simpl. rewrite app_nil_r. exact Hcat.
    + apply Forall_app. split; [exact Hprev | constructor; [exact Hc | constructor]].
    + apply Forall_app. split; [exact Hfit | constructor; [exact (Hcur Hc) | constructor]].
    + exact (Hbr Hc).
Qed.

End GreedyWrap.

Section WrappedCaption.

Context {num : Type} {N : Number num}.
Variable measureText : string -> num.
Local Open Scope num_scope.

(** X13.  On the multi-line path every line drawn fits the maximum width
    (80% of the canvas width) unless it is a single word, and every break
    is forced: the first word of a line would not have fitted at the end of
    the line before it.  The lines are the lines of consecutive groups of
    the caption's words. *)
Theorem wrapped_lines_fit_and_are_greedy (p : Props num) (s : string) :
  message p = Some s -> s <> "" ->
  (measureText s >? width p * lit (8 # 10)) = true ->
  exists groups : list (list string),
    map (@ft_text num) (drawMessage measureText p) = map lineOf groups /\
    List.concat groups = JS.split_space s /\
    Forall (lineFits measureText (width p * lit (8 # 10))) groups /\
    breaksForced measureText (width p * lit (8 # 10)) groups.
Proof.
  intros Hm Hne Hwrap.
  rewrite (drawMessage_nonempty measureText p s Hm Hne), Hwrap, fillLines_text.
  destruct (wrapLines_greedy measureText (width p * lit (8 # 10))
              (JS.split_space s) (split_space_nonempty s))
    as [groups [Hlines [Hcat [_ [Hfit Hbr]]]]].
  exists groups. repeat split; assumption.
Qed.

End WrappedCaption.

Lemma wrapped_lines_fit_and_are_greedy_witness :
  (Sample.monospace "Happy 1st Birthday to our little prince, the sunshine of our days!"
   >? width (Sample.canvas "Happy 1st Birthday to our little prince, the sunshine of our days!")
      * lit (8 # 10))%num = true /\
  exists groups : list (list string),
    map (@ft_text Q)
        (drawMessage Sample.monospace
           (Sample.canvas "Happy 1st Birthday to our little prince, the sunshine of our days!"))
    = map lineOf groups /\
    Forall (lineFits Sample.monospace (3000 * (8 # 10))) groups.
Proof.
  split; [reflexivity|].
  destruct (@wrapped_lines_fit_and_are_greedy Q _ Sample.monospace
              (Sample.canvas "Happy 1st Birthday to our little prince, the sunshine of our days!")
              "Happy 1st Birthday to our little prince, the sunshine of our days!"
              eq_refl ltac:(discriminate) eq_refl)
    as [groups [Hl [_ [Hfit _]]]].
  exists groups. split; [exact Hl | exact Hfit].
Defined.

(* ================================================================= *)
(** ** The block of caption lines *)

Section CaptionBlock.

Local Open Scope Q_scope.

Lemma fillLines_nth (lines : list string) (textX y lineHeight : Q) (k : nat)
      (c : FillText Q) :
  nth_error (fillLines lines textX y lineHeight) k = Some c ->
  nth_error lines k = Some (ft_text c) /\
  ft_x c = textX /\
  ft_y c == y + inject_Z (Z.of_nat k) * lineHeight.
Proof.
  revert y k. induction lines as [|l rest IH]; intros y k Hk.
  - destruct k; discriminate Hk.
  - destruct k as [|k]; simpl in Hk.
    + injection Hk as <-. simpl. repeat split. ring.
    + destruct (IH _ _ Hk) as [Ht [Hx Hy]].
      repeat split; [exact Ht | exact Hx|].
      rewrite Hy. cbn [add Q_Number].
      rewrite Nat2Z.inj_succ. unfold Z.succ. rewrite inject_Z_plus. ring.
Qed.

Lemma fillLines_length (lines : list string) (textX y lineHeight : Q) :
  List.length (fillLines lines textX y lineHeight) = List.length lines.
Proof.
  revert y. induction lines as [|l rest IH]; intro y; simpl; [reflexivity|].
  rewrite IH. reflexivity.
Qed.

Lemma fillLines_step (lines : list string) (textX y lineHeight : Q) (k : nat)
      (c c' : FillText Q) :
  nth_error (fillLines lines textX y lineHeight) k = Some c ->
  nth_error (fillLines lines textX y lineHeight) (S k) = Some c' ->
  ft_y c' == ft_y c + lineHeight.
Proof.
  intros Hc Hc'.
  destruct (fillLines_nth _ _ _ _ _ _ Hc) as [_ [_ Hy]].
  destruct (fillLines_nth _ _ _ _ _ _ Hc') as [_ [_ Hy']].
  rewrite Hy, Hy', Nat2Z.inj_succ. unfold Z.succ. rewrite inject_Z_plus. ring.
Qed.

Lemma fillLines_ends (lines : list string) (textX y lineHeight : Q)
      (c c' : FillText Q) :
  nth_error (fillLines lines textX y lineHeight) 0 = Some c ->
  nth_error (fillLines lines textX y lineHeight)
            (List.length (fillLines lines textX y lineHeight) - 1) = Some c' ->
  ft_y c + ft_y c'
  == 2 * y + (inject_Z (Z.of_nat (List.length lines)) - 1) * lineHeight.
Proof.
  intros Hc Hc'. rewrite fillLines_length in Hc'.
  destruct (fillLines_nth _ _ _ _ _ _ Hc) as [Hl0 [_ Hy]].
  destruct (fillLines_nth _ _ _ _ _ _ Hc') as [_ [_ Hy']].
  assert (Hlen : (0 < List.length lines)%nat)
    by (destruct lines; [discriminate Hl0 | simpl; lia]).
  rewrite Hy, Hy'.
  replace (Z.of_nat (List.length lines - 1))
    with (Z.of_nat (List.length lines) + -1)%Z by lia.
  rewrite inject_Z_plus. change (inject_Z (Z.of_nat 0)) with 0.
  change (inject_Z (-1)) with (- (1)). ring.
Qed.

(** X14.  The lines of a caption are stacked evenly around the anchor:
    each line is one line height (1.3 times the font size of 0.035 of the
    content size) below the one before, and the first and the last line are
    equally far above and below the anchor's height. *)
Theorem caption_block_centred (measureText : string -> Q) (p : Props Q) (s : string) :
  message p = Some s -> s <> "" ->
  (forall k c c',
      nth_error (drawMessage measureText p) k = Some c ->
      nth_error (drawMessage measureText p) (S k) = Some c' ->
      ft_y c' == ft_y c + scaleBase p * (35 # 1000) * (13 # 10)) /\
  (forall c c',
      nth_error (drawMessage measureText p) 0 = Some c ->
      nth_error (drawMessage measureText p)
                (List.length (drawMessage measureText p) - 1) = Some c' ->
      ft_y c + ft_y c' == 2 * (pt_y (messagePos p) * height p)).
Proof.
  intros Hm Hne. rewrite (drawMessage_nonempty measureText p s Hm Hne).
  match goal with
  | |- context [if ?b then fillLines _ _ _ _ else _] => destruct b
  end.
  - split.
    + intros k c c' Hc Hc'. exact (fillLines_step _ _ _ _ _ _ _ Hc Hc').
    + intros c c' Hc Hc'. rewrite (fillLines_ends _ _ _ _ _ _ Hc Hc').
      unfold ofNat. cbn [add sub mul div lit Q_Number]. field.
  - split.
    + intros k c c' Hc Hc'. destruct k; discriminate Hc'.
    + intros c c' Hc Hc'. simpl in Hc, Hc'.
      injection Hc as <-. injection Hc' as <-. simpl. ring.
Qed.

Lemma caption_block_centred_witness :
  message (Sample.canvas "Happy 1st Birthday to our little prince, the sunshine of our days!")
  = Some "Happy 1st Birthday to our little prince, the sunshine of our days!" /\
  exists c c',
    nth_error
      (drawMessage Sample.monospace
         (Sample.canvas "Happy 1st Birthday to our little prince, the sunshine of our days!"))
      0 = Some c /\
    nth_error
      (drawMessage Sample.monospace
         (Sample.canvas "Happy 1st Birthday to our little prince, the sunshine of our days!"))
      1 = Some c' /\
    ft_y c + ft_y c' == 2 * ((92 # 100) * 3000).
Proof.
  split; [reflexivity|].
  eexists. eexists. split; [reflexivity|]. split; [reflexivity|].
  exact (proj2 (caption_block_centred Sample.monospace
                  (Sample.canvas "Happy 1st Birthday to our little prince, the sunshine of our days!")
                  "Happy 1st Birthday to our little prince, the sunshine of our days!"
                  eq_refl ltac:(discriminate))
           _ _ eq_refl eq_refl).
Defined.

End CaptionBlock.

(* ================================================================= *)
(** ** The suggested caption *)

Section Suggestion.

Context {num : Type} {N : Number num}.
Variable measureText : string -> num.

Lemma generateBirthdayMessage_nonempty (r : Generated) :
  generateBirthdayMessage r <> "".
Proof.
  destruct r as [|[text|]]; simpl; try discriminate.
  destruct text; [discriminate|]. discriminate.
Qed.

(** X15.  Whatever the text service does (throws, answers without text,
    answers with an empty text, answers with a text), the suggestion is a
    non-empty string, its own text when that is non-empty; so after
    [handleGenerateMessage] the canvas draws a caption, and the slots and
    the anchor are as before. *)
Theorem suggestion_is_always_drawn (a : App num) (r : Generated) :
  generateBirthdayMessage r <> "" /\
  (forall text, r = Answered (Some text) -> text <> "" ->
                generateBirthdayMessage r = text) /\
  app_slots (handleGenerateMessage a r) = app_slots a /\
  app_messagePos (handleGenerateMessage a r) = app_messagePos a /\
  drawMessage measureText (canvasProps (handleGenerateMessage a r)) <> [].
Proof.
  split; [apply generateBirthdayMessage_nonempty|].
  split.
  { intros text -> Hne. destruct text; [congruence | reflexivity]. }
  split; [reflexivity|]. split; [reflexivity|].
  rewrite (drawMessage_nonempty measureText
             (canvasProps (handleGenerateMessage a r))
             (generateBirthdayMessage r) eq_refl
             (generateBirthdayMessage_nonempty r)).
  match goal with
  | |- context [if ?b then fillLines ?L _ _ _ else _] =>
      destruct b; [|discriminate]; unfold wrapLines
  end.
  match goal with
  | |- context [wrapLoop ?m ?w ?ws ?n ?l ?ls] =>
      destruct (wrapLoop m w ws n l ls) as [line lines]
  end.
  destruct lines; discriminate.
Qed.

End Suggestion.

Lemma suggestion_is_always_drawn_witness :
  generateBirthdayMessage (Answered (Some "One year of you!")) = "One year of you!" /\
  generateBirthdayMessage Rejected = "Happy 1st Birthday! One year of love and joy.".
Proof.
  split; [|reflexivity].
  exact (proj1 (proj2 (@suggestion_is_always_drawn Q _ Sample.monospace Sample.app
                         (Answered (Some "One year of you!"))))
           "One year of you!" eq_refl ltac:(discriminate)).
Defined.

(* ================================================================= *)
(** ** The commands of the slots *)

Section SlotCommands.

Context {num : Type} {N : Number num} {T : Trig num}.

Lemma clipTrace_app (s : ClipState) (l1 l2 : list (Cmd num)) :
  clipTrace s (l1 ++ l2) =
  ((fst (clipTrace s l1) ++ fst (clipTrace (snd (clipTrace s l1)) l2))%list,
   snd (clipTrace (snd (clipTrace s l1)) l2)).
Proof.
  revert s. induction l1 as [|c l1 IH]; intro s; simpl.
  - destruct (clipTrace s l2); reflexivity.
  - rewrite IH. destruct (clipTrace (clipStep s c) l1) as [t1 s1]. simpl.
    destruct (clipTrace s1 l2); reflexivity.
Qed.

(** One slot: the commands that run under the clip are the photo and the
    [restore] that ends it, and the state comes back. *)
Lemma drawSlot_clip (p : Props num) (slot : PhotoSlot num) (stack : list bool) :
  map fst (filter (fun t => snd t) (fst (clipTrace (stack, false) (drawSlot p slot))))
  = (drawPhoto p slot ++ [restore])%list /\
  snd (clipTrace (stack, false) (drawSlot p slot)) = (stack, false).
Proof.
  unfold drawSlot, drawPhoto, drawDecoration.
  destruct (image slot); destruct (isCenter slot); split; reflexivity.
Qed.

(** X16.  Drawing the slots leaves the context as it found it: whatever
    is on the [save] stack stays there and no clip region is left in force.
    The only commands that run under a clip are, slot by slot, the photo or
    its placeholder and the [restore] that ends the clip; the sticker disc,
    the badges and the rim are drawn unclipped. *)
Theorem slot_clips_do_not_leak (p : Props num) (stack : list bool) :
  map fst (filter (fun t => snd t) (fst (clipTrace (stack, false) (drawSlots p))))
  = flat_map (fun slot => drawPhoto p slot ++ [restore])%list (slots p) /\
  snd (clipTrace (stack, false) (drawSlots p)) = (stack, false).
Proof.
  unfold drawSlots. induction (slots p) as [|slot rest IH]; [split; reflexivity|].
  cbn [flat_map]. rewrite clipTrace_app.
  destruct (drawSlot_clip p slot stack) as [Hf Hs].
  rewrite Hs. cbn [fst snd]. destruct IH as [IHf IHs].
  split; [|exact IHs].
  rewrite filter_app, map_app, Hf, IHf. reflexivity.
Qed.



End SlotCommands.

(* ================================================================= *)
(** ** The dot grid *)

Section DotGrid.

Local Open Scope Q_scope.

Lemma inject_nat_succ (n : nat) :
  inject_Z (Z.of_nat (S n)) == inject_Z (Z.of_nat n) + 1.
Proof. rewrite Nat2Z.inj_succ. unfold Z.succ. rewrite inject_Z_plus. reflexivity. Qed.

Lemma dotColumn_unfold (p : Props Q) (i : Q) (fuel : nat) (j : Q) :
  dotColumn p i fuel j =
  if lt j (height p) then
    match fuel with
    | O => None
    | S fuel' =>
        match dotColumn p i fuel' (j + dotSpacing p) with
        | Some rest =>
            Some (if dotTest p i j
                  then mkDot i j (scaleBase p * (3 # 1000)) :: rest
                  else rest)
        | None => None
        end
    end
  else Some [].
Proof. destruct fuel; reflexivity. Qed.

Lemma dotRows_unfold (p : Props Q) (fuelJ fuel : nat) (i : Q) :
  dotRows p fuelJ fuel i =
  if lt i (width p) then
    match fuel with
    | O => None
    | S fuel' =>
        match dotColumn p i fuelJ 0, dotRows p fuelJ fuel' (i + dotSpacing p) with
        | Some column, Some rest => Some (column ++ rest)%list
        | _, _ => None
        end
    end
  else Some [].
Proof. destruct fuel; reflexivity. Qed.

(** The inner loop ends once the fuel covers what is left of the height. *)
Lemma dotColumn_returns (p : Props Q) (i : Q) (fuel : nat) :
  0 < dotSpacing p ->
  forall j,
    height p - j <= inject_Z (Z.of_nat fuel) * dotSpacing p ->
    exists dots,
      dotColumn p i fuel j = Some dots /\
      Forall (fun d => dot_x d = i /\ j <= dot_y d /\ dot_y d < height p) dots.
Proof.
  intro Hstep. induction fuel as [|fuel IH]; intros j Hfuel;
    rewrite dotColumn_unfold; destruct (lt j (height p)) eqn:Hlt;
    try (exists []; split; [reflexivity | constructor]).
  - apply lt_Q in Hlt. change (inject_Z (Z.of_nat 0)) with 0 in Hfuel.
    exfalso. lra.
  - apply lt_Q in Hlt.
    destruct (IH (j + dotSpacing p)) as [rest [Hrest Hin]].
    { rewrite inject_nat_succ in Hfuel. lra. }
    cbn [add Q_Number] in *. rewrite Hrest.
    eexists. split; [reflexivity|].
    assert (Hin' : Forall (fun d => dot_x d = i /\ j <= dot_y d /\ dot_y d < height p) rest).
    { eapply Forall_impl; [|exact Hin]. intros d [Hx [Hy Hh]].
      repeat split; [exact Hx | lra | exact Hh]. }
    destruct (dotTest p i j); [|exact Hin'].
    constructor; [|exact Hin']. simpl. repeat split; [lra | exact Hlt].
Qed.

Lemma dotColumn_same (p : Props Q) (i : Q) (f1 : nat) :
  forall (f2 : nat) (j : Q) (d1 d2 : list Dot),
    dotColumn p i f1 j = Some d1 -> dotColumn p i f2 j = Some d2 -> d1 = d2.
Proof.
  induction f1 as [|f1 IH]; intros f2 j d1 d2;
    rewrite (dotColumn_unfold p i _ j), (dotColumn_unfold p i f2 j);
    destruct (lt j (height p)); try congruence.
  destruct f2 as [|f2]; [discriminate|].
  destruct (dotColumn p i f1 (j + dotSpacing p)) as [r1|] eqn:E1; [|discriminate].
  destruct (dotColumn p i f2 (j + dotSpacing p)) as [r2|] eqn:E2; [|discriminate].
  rewrite (IH f2 _ r1 r2 E1 E2). congruence.
Qed.

Lemma dotRows_returns (p : Props Q) (fuelJ fuel : nat) :
  0 < dotSpacing p ->
  height p <= inject_Z (Z.of_nat fuelJ) * dotSpacing p ->
  forall i,
    width p - i <= inject_Z (Z.of_nat fuel) * dotSpacing p ->
    exists dots,
      dotRows p fuelJ fuel i = Some dots /\
      Forall (fun d => i <= dot_x d /\ dot_x d < width p /\
                       0 <= dot_y d /\ dot_y d < height p) dots.
Proof.
  intros Hstep HfuelJ. induction fuel as [|fuel IH]; intros i Hfuel;
    rewrite dotRows_unfold; destruct (lt i (width p)) eqn:Hlt;
    try (exists []; split; [reflexivity | constructor]).
  - apply lt_Q in Hlt. change (inject_Z (Z.of_nat 0)) with 0 in Hfuel.
    exfalso. lra.
  - apply lt_Q in Hlt.
    destruct (dotColumn_returns p i fuelJ Hstep 0) as [column [Hcol Hcin]]; [lra|].
    destruct (IH (i + dotSpacing p)) as [rest [Hrest Hin]].
    { rewrite inject_nat_succ in Hfuel. lra. }
    cbn [add Q_Number] in *. rewrite Hcol, Hrest.
    eexists. split; [reflexivity|].
    apply Forall_app. split.
    + eapply Forall_impl; [|exact Hcin]. intros d [Hx [Hy Hh]].
      rewrite Hx. repeat split; [lra | exact Hlt | exact Hy | exact Hh].
    + eapply Forall_impl; [|exact Hin]. intros d [Hx [Hw [Hy Hh]]].
      repeat split; [lra | exact Hw | exact Hy | exact Hh].
Qed.

Lemma dotRows_same (p : Props Q) (f1 : nat) :
  forall (g1 g2 f2 : nat) (i : Q) (d1 d2 : list Dot),
    dotRows p g1 f1 i = Some d1 -> dotRows p g2 f2 i = Some d2 -> d1 = d2.
Proof.
  induction f1 as [|f1 IH]; intros g1 g2 f2 i d1 d2;
    rewrite (dotRows_unfold p g1 _ i), (dotRows_unfold p g2 f2 i);
    destruct (lt i (width p)); try congruence.
  destruct f2 as [|f2]; [discriminate|].
  destruct (dotColumn p i g1 0) as [c1|] eqn:C1; [|discriminate].
  destruct (dotColumn p i g2 0) as [c2|] eqn:C2; [|discriminate].
  destruct (dotRows p g1 f1 (i + dotSpacing p)) as [r1|] eqn:E1; [|discriminate].
  destruct (dotRows p g2 f2 (i + dotSpacing p)) as [r2|] eqn:E2; [|discriminate].
  rewrite (dotColumn_same p i g1 g2 0 c1 c2 C1 C2), (IH g1 g2 f2 _ r1 r2 E1 E2).
  congruence.
Qed.

Lemma fuel_covers (a step : Q) :
  0 < step ->
  a <= inject_Z (Z.of_nat (Z.to_nat (Qceiling (a / step)))) * step.
Proof.
  intro Hstep.
  assert (Hc : a / step <= inject_Z (Z.of_nat (Z.to_nat (Qceiling (a / step))))).
  { eapply Qle_trans; [apply Qle_ceiling|]. apply inject_Z_le. lia. }
  setoid_replace a with (a / step * step) at 1
    by (field; intro E; rewrite E in Hstep; discriminate).
  apply Qmult_le_compat_r; [exact Hc | lra].
Qed.

Lemma dotSpacing_pos (p : Props Q) : 0 < width p -> 0 < height p -> 0 < dotSpacing p.
Proof.
  intros Hw Hh. unfold dotSpacing, scaleBase. cbn [Math_min Q_Number].
  destruct (Q.min_spec (width p) (height p)) as [[_ E] | [_ E]]; rewrite E; lra.
Qed.

(** X18.  On a canvas of positive width and height the two dot loops end:
    with enough iterations allowed they return the list of dots, the same
    list however many more are allowed, and every dot drawn lies inside the
    canvas. *)
Theorem dot_grid_terminates (p : Props Q) :
  0 < width p -> 0 < height p ->
  exists dots,
    (exists fuel, drawDots p fuel = Some dots) /\
    (forall fuel dots', drawDots p fuel = Some dots' -> dots' = dots) /\
    Forall (fun d => 0 <= dot_x d /\ dot_x d < width p /\
                     0 <= dot_y d /\ dot_y d < height p) dots.
Proof.
  intros Hw Hh. pose proof (dotSpacing_pos p Hw Hh) as Hstep.
  set (fw := Z.to_nat (Qceiling (width p / dotSpacing p))).
  set (fh := Z.to_nat (Qceiling (height p / dotSpacing p))).
  assert (Hfw : width p <= inject_Z (Z.of_nat (fw + fh)) * dotSpacing p).
  { eapply Qle_trans; [apply (fuel_covers (width p) (dotSpacing p) Hstep)|].
    apply Qmult_le_compat_r; [apply inject_Z_le; fold fw; lia | lra]. }
  assert (Hfh : height p <= inject_Z (Z.of_nat (fw + fh)) * dotSpacing p).
  { eapply Qle_trans; [apply (fuel_covers (height p) (dotSpacing p) Hstep)|].
    apply Qmult_le_compat_r; [apply inject_Z_le; fold fh; lia | lra]. }
  destruct (dotRows_returns p (fw + fh) (fw + fh) Hstep Hfh 0) as [dots [Hrun Hin]];
    [lra|].
  exists dots. split; [exists (fw + fh)%nat; exact Hrun|]. split.
  - intros fuel dots' Hrun'. unfold drawDots in Hrun'.
    exact (dotRows_same p fuel fuel (fw + fh)%nat (fw + fh)%nat 0 dots' dots Hrun' Hrun).
  - exact Hin.
Qed.

Lemma dotRows_hangs (p : Props Q) (fuelJ fuel : nat) :
  0 < width p -> dotSpacing p <= 0 ->
  forall i, i <= 0 -> dotRows p fuelJ fuel i = None.
Proof.
  intros Hw Hstep. induction fuel as [|fuel IH]; intros i Hi;
    rewrite dotRows_unfold;
    (assert (Hlt : lt i (width p) = true) by (apply lt_Q; lra)); rewrite Hlt.
  - reflexivity.
  - rewrite (IH (i + dotSpacing p)) by (cbn [add Q_Number]; lra).
    destruct (dotColumn p i fuelJ 0); reflexivity.
Qed.

(** X19.  On a canvas of positive width whose height, and so whose content
    size, is zero or negative, the outer dot loop never advances: [draw]
    does not return, however many iterations are allowed.  With a width
    that is zero or negative the loop is not entered and no dot is drawn. *)
Theorem dot_grid_hangs_on_flat_canvas (p : Props Q) :
  (0 < width p -> height p <= 0 -> forall fuel, drawDots p fuel = None) /\
  (width p <= 0 -> forall fuel, drawDots p fuel = Some []).
Proof.
  split.
  - intros Hw Hh fuel. unfold drawDots.
    apply dotRows_hangs; [exact Hw| |lra].
    unfold dotSpacing, scaleBase. cbn [Math_min Q_Number].
    destruct (Q.min_spec (width p) (height p)) as [[Hlt E] | [_ E]]; rewrite E; lra.
  - intros Hw fuel. unfold drawDots. rewrite dotRows_unfold.
    assert (Hlt : lt 0 (width p) = false) by (apply lt_Q_false; exact Hw).
    rewrite Hlt. reflexivity.
Qed.

Lemma dot_grid_terminates_witness :
  0 < width (Sample.canvas "") /\ 0 < height (Sample.canvas "") /\
  exists dots, drawDots (Sample.canvas "") 20 = Some dots /\ List.length dots = 200%nat.
Proof.
  split; [reflexivity|]. split; [reflexivity|].
  destruct (dot_grid_terminates (Sample.canvas "") eq_refl eq_refl)
    as [dots [_ [Hsame _]]].
  exists dots.
  destruct (drawDots (Sample.canvas "") 20) as [dots'|] eqn:Hrun.
  - rewrite <- (Hsame 20%nat dots' Hrun). split; [reflexivity|].
    revert Hrun. vm_compute. intro Hrun. injection Hrun as <-. reflexivity.
  - exfalso. revert Hrun. vm_compute. discriminate.
Defined.

Lemma dot_grid_hangs_on_flat_canvas_witness :
  0 < width (mkProps [] 3000 0 600 None (mkPoint 0 0)) /\
  drawDots (mkProps [] 3000 0 600 None (mkPoint 0 0)) 1000 = None.
Proof.
  split; [reflexivity|].
  exact (proj1 (dot_grid_hangs_on_flat_canvas (mkProps [] 3000 0 600 None (mkPoint 0 0)))
           eq_refl ltac:(discriminate) 1000%nat).
Defined.

End DotGrid.

(* ================================================================= *)
(** ** One slot at a time *)

Section OneSlot.

Context {num : Type} {N : Number num}.

Lemma NoDup_ids_split (l1 l2 : list (PhotoSlot num)) (s : PhotoSlot num) :
  NoDup (map (@id num) (l1 ++ s :: l2)) ->
  (forall t, In t l1 -> String.eqb (id t) (id s) = false) /\
  (forall t, In t l2 -> String.eqb (id t) (id s) = false).
Proof.
  rewrite map_app. simpl. intro Hnd.
  pose proof (NoDup_remove_2 _ _ _ Hnd) as Hnot.
  split; intros t Ht; apply String.eqb_neq; intro E; apply Hnot, in_or_app;
    [left | right]; rewrite <- E; apply in_map; exact Ht.
Qed.

Lemma completedCount_app (l1 l2 : list (PhotoSlot num)) :
  completedCount (l1 ++ l2) = (completedCount l1 + completedCount l2)%nat.
Proof. unfold completedCount. rewrite filter_app, length_app. reflexivity. Qed.

Lemma completedCount_cons (s : PhotoSlot num) (l : list (PhotoSlot num)) :
  completedCount (s :: l)
  = ((if holdsImage s then 1 else 0) + completedCount l)%nat.
Proof. unfold completedCount. cbn [filter]. destruct (holdsImage s); reflexivity. Qed.

(** X20.  With ids all different, an upload or a pan addressed to a slot
    changes that slot and no other: the list before and after it is the
    same.  An upload into an empty slot raises the count of completed slots
    by one, an upload into a filled slot leaves it, and a pan never changes
    it. *)
Theorem update_touches_one_slot (l1 l2 : list (PhotoSlot num)) (s : PhotoSlot num) :
  NoDup (map (@id num) (l1 ++ s :: l2)) ->
  (forall img,
      handleUpload (id s) img (l1 ++ s :: l2)
      = (l1 ++ mkSlot (id s) (label s) (Some img) (x s) (y s) (radius s)
                      (isCenter s) (lit 0) (lit 0) :: l2)%list /\
      completedCount (handleUpload (id s) img (l1 ++ s :: l2))
      = (completedCount (l1 ++ s :: l2) + if holdsImage s then 0 else 1)%nat) /\
  (forall dx dy,
      handleUpdateSlotOffset (id s) dx dy (l1 ++ s :: l2)
      = (l1 ++ mkSlot (id s) (label s) (image s) (x s) (y s) (radius s)
                      (isCenter s) (add (imageOffsetX s) dx)
                      (add (imageOffsetY s) dy) :: l2)%list /\
      completedCount (handleUpdateSlotOffset (id s) dx dy (l1 ++ s :: l2))
      = completedCount (l1 ++ s :: l2)).
Proof.
  intro Hnd. destruct (NoDup_ids_split l1 l2 s Hnd) as [H1 H2].
  assert (Hup : forall img,
             handleUpload (id s) img (l1 ++ s :: l2)
             = (l1 ++ mkSlot (id s) (label s) (Some img) (x s) (y s) (radius s)
                             (isCenter s) (lit 0) (lit 0) :: l2)%list).
  { intro img. unfold handleUpload. rewrite map_app. cbn [map].
    rewrite String.eqb_refl. f_equal; [|f_equal];
      apply map_unchanged; intros t Ht;
      [rewrite (H1 t Ht) | rewrite (H2 t Ht)]; reflexivity. }
  assert (Hoff : forall dx dy,
             handleUpdateSlotOffset (id s) dx dy (l1 ++ s :: l2)
             = (l1 ++ mkSlot (id s) (label s) (image s) (x s) (y s) (radius s)
                             (isCenter s) (add (imageOffsetX s) dx)
                             (add (imageOffsetY s) dy) :: l2)%list).
  { intros dx dy. unfold handleUpdateSlotOffset. rewrite map_app. cbn [map].
    rewrite String.eqb_refl. f_equal; [|f_equal];
      apply map_unchanged; intros t Ht;
      [rewrite (H1 t Ht) | rewrite (H2 t Ht)]; reflexivity. }
  split.
  - intro img. split; [apply Hup|].
    rewrite Hup, !completedCount_app, !completedCount_cons.
    cbn [holdsImage image]. destruct (holdsImage s); lia.
  - intros dx dy. split; [apply Hoff|].
    rewrite Hoff, !completedCount_app, !completedCount_cons. reflexivity.
Qed.

End OneSlot.

Lemma update_touches_one_slot_witness :
  NoDup (map (@id Q) ([Sample.ringSlot] ++ Sample.heroSlot :: [])) /\
  handleUpload "birthday" Sample.square [Sample.ringSlot; Sample.heroSlot]
  = [Sample.ringSlot;
     mkSlot "birthday" "1st Birthday" (Some Sample.square) (1 # 2) (1 # 2) (16 # 100)
            true 0 0].
Proof.
  assert (Hnd : NoDup (map (@id Q) ([Sample.ringSlot] ++ Sample.heroSlot :: []))).
  { simpl. constructor; [intros [E | []]; discriminate E|].
    constructor; [intros []|constructor]. }
  split; [exact Hnd|].
  exact (proj1 (proj1 (@update_touches_one_slot Q _ [Sample.ringSlot] [] Sample.heroSlot Hnd)
                  Sample.square)).
Defined.

(* ================================================================= *)
(** ** Badges without a colour *)

Section BadgeEdge.

Local Open Scope string_scope.

(** X21.  A badge whose label does not contain "Day" has no colour (the
    palette is indexed out of range, which assigns [undefined]) exactly when
    what is left of the label after removing "Month " does not start with a
    number ([parseInt] is [NaN]), starts with a numeral too large for a
    finite number ([parseInt] is an infinity, whose remainder is [NaN]), or
    starts with a negative number that is no multiple of four; in every
    other case the colour is one of the four of the palette. *)
Theorem badge_colour_undefined (label : string) :
  JS.includes label "Day" = false ->
  (Badge.badgeColor label = None <->
   match JS.parseInt (JS.replace label "Month " "") with
   | JS.NaN => True
   | JS.Infinity _ => True
   | JS.Finite z => (Z.rem z 4 < 0)%Z
   end) /\
  (forall c, Badge.badgeColor label = Some c -> In c Badge.colors).
Proof.
  intro Hday. unfold Badge.badgeColor. rewrite Hday.
  destruct (JS.parseInt (JS.replace label "Month " "")) as [|neg|z]; simpl.
  1, 2: split; [split; auto | discriminate].
  change (Z.pos (Pos.of_succ_nat 3)) with 4%Z.
  destruct (Z.ltb_spec (Z.rem z 4) 0) as [Hneg | Hpos].
  - split; [split; auto | discriminate].
  - assert (Hlt : (Z.rem z 4 < 4)%Z).
    { pose proof (Z.rem_bound_abs z 4). lia. }
    assert (Hn : (Z.to_nat (Z.rem z 4) < 4)%nat) by lia.
    destruct (Z.to_nat (Z.rem z 4)) as [|[|[|[|n]]]]; [| | | |lia];
      (split; [split; [discriminate | lia]|]);
      intros c Hc; injection Hc as <-; simpl; auto.
Qed.

Lemma badge_colour_undefined_witness :
  JS.includes ("Month " ++ JS.showN (10 ^ 400)) "Day" = false /\
  JS.parseInt (JS.showN (10 ^ 400)) = JS.Infinity false /\
  Badge.badgeColor ("Month " ++ JS.showN (10 ^ 400)) = None /\
  JS.includes "Month x" "Day" = false /\
  Badge.badgeColor "Month x" = None.
Proof.
  assert (Hday : JS.includes ("Month " ++ JS.showN (10 ^ 400)) "Day" = false)
    by (vm_compute; reflexivity).
  assert (Hinf : JS.parseInt (JS.showN (10 ^ 400)) = JS.Infinity false)
    by (vm_compute; reflexivity).
  split; [exact Hday|]. split; [exact Hinf|]. split.
  - apply (proj1 (badge_colour_undefined _ Hday)).
    rewrite replace_Month_N, Hinf. exact I.
  - split; [reflexivity|].
    exact (proj2 (proj1 (badge_colour_undefined "Month x" eq_refl)) I).
Defined.

End BadgeEdge.
